(** * Respectabullz contract tools: paragraph rewriting and dumping

    A shallow embedding of [tools/update_contract_template.py] and
    [tools/dump_contract.py], and of the search-path step of
    [start_dev.py].  The assignment of an arbitrary string to a paragraph
    by the document container is embedded in [Docx].  Both tools see a word-processing document as
    an ordered sequence of paragraphs, each with a readable and writable
    text.  Python strings are sequences of Unicode code points; the string
    methods the tools call ([in], [startswith], [find], [replace], [strip],
    slicing) are embedded in [PyStr]. *)

From Stdlib Require Import String Ascii.
From Stdlib Require Import List Bool Arith NArith ZArith Lia.
From Stdlib Require Import Numbers.DecimalString.
From Stdlib Require DecimalNat.
Import ListNotations.

Local Open Scope list_scope.

(* ================================================================== *)
(** ** Python [str] *)

Module PyStr.

(** A character is a Unicode code point. *)
Definition char := N.
Definition str := list char.

(** An ASCII literal of the source, code point by code point. *)
Definition lit (s : string) : str := map N_of_ascii (list_ascii_of_string s).

Definition dquote : char := 34%N.         (* the double quote *)
Definition ldquote : char := 8220%N.      (* U+201C, left double quotation mark *)
Definition nbsp : char := 160%N.          (* "\xa0" *)
Definition space : char := 32%N.
Definition newline : char := 10%N.        (* "\n" *)
Definition rparen : char := 41%N.         (* ")" *)

(** [s.startswith(prefix)] *)
Fixpoint startswith (s prefix : str) : bool :=
  match prefix, s with
  | [], _ => true
  | _ :: _, [] => false
  | c :: prefix', d :: s' => (c =? d)%N && startswith s' prefix'
  end.

(** [needle in s] *)
Fixpoint contains (needle s : str) : bool :=
  startswith s needle ||
  match s with
  | [] => false
  | _ :: s' => contains needle s'
  end.

(** [s.find(sub)]: the lowest index where [sub] occurs, [-1] if none. *)
Fixpoint find (s sub : str) : Z :=
  if startswith s sub then 0%Z
  else match s with
       | [] => (-1)%Z
       | _ :: s' => let r := find s' sub in
                    if (r <? 0)%Z then (-1)%Z else (1 + r)%Z
       end.

(** [s[i:]]: a negative index counts from the end and is clamped at 0, an
    index past the end gives the empty string. *)
Definition slice_from (s : str) (i : Z) : str :=
  let n := Z.of_nat (length s) in
  let start := if (i <? 0)%Z then Z.max 0 (i + n) else i in
  skipn (Z.to_nat start) s.

(** [c.isspace()] for one character: the code points of bidirectional type
    WS, B or S, or of category Zs. *)
Definition isspace (c : char) : bool :=
  ((9 <=? c) && (c <=? 13) || (28 <=? c) && (c <=? 32)
   || (c =? 133) || (c =? 160) || (c =? 5760)
   || (8192 <=? c) && (c <=? 8202)
   || (c =? 8232) || (c =? 8233) || (c =? 8239) || (c =? 8287)
   || (c =? 12288))%N.

Fixpoint lstrip (s : str) : str :=
  match s with
  | [] => []
  | c :: s' => if isspace c then lstrip s' else s
  end.

Definition rstrip (s : str) : str := rev (lstrip (rev s)).

(** [s.strip()] *)
Definition strip (s : str) : str := rstrip (lstrip s).

(** [s.replace(old, new)] for a non-empty [old]: occurrences are taken left
    to right and do not overlap.  [skip] counts the characters of an
    occurrence just replaced that are still to be passed over. *)
Fixpoint replace_from (old new : str) (skip : nat) (s : str) : str :=
  match s with
  | [] => []
  | c :: s' =>
      match skip with
      | S k => replace_from old new k s'
      | O => if startswith s old
             then new ++ replace_from old new (length old - 1) s'
             else c :: replace_from old new 0 s'
      end
  end.

(** [s.replace(old, new)].  The empty [old] occurs before every character
    and at the end. *)
Definition replace (s old new : str) : str :=
  match old with
  | [] => new ++ flat_map (fun c => c :: new) s
  | _ :: _ => replace_from old new 0 s
  end.

(** [str(i)] for a non-negative integer. *)
Definition str_of_nat (i : nat) : str :=
  lit (NilZero.string_of_uint (Nat.to_uint i)).

End PyStr.

Import PyStr.

(* ================================================================== *)
(** ** Documents *)

(** A paragraph of the document container: the underlying element, which
    gives the paragraph its identity, and its text.  Assigning to
    [paragraph.text] changes the text and nothing else.  [set_text] is the
    assignment of a text that the container stores as it is given, which
    every text that [main] writes from its own literals is; [Docx.assign]
    below is the assignment of an arbitrary string. *)
Record Paragraph := { elem : nat; text : str }.

Definition set_text (p : Paragraph) (t : str) : Paragraph :=
  {| elem := elem p; text := t |}.

(** [doc.paragraphs], in document order. *)
Definition Document := list Paragraph.

(* ================================================================== *)
(** ** tools/update_contract_template.py *)

Module UpdateContractTemplate.

Definition TARGET_PATH : str := lit "contacts/Contract Template.docx".

(** What a run leaves outside the process.  Loading and saving are taken
    to succeed: a failure of the file system is outside this model. *)
Inductive event :=
| Saved (path : str) (d : Document)      (* [doc.save(path)] *)
| Printed (msg : str).                   (* [print(msg)] *)

(** The state of a run: the loaded document and the effects so far, oldest
    first. *)
Record World := { doc : Document; trace : list event }.

(** [ValueError(f"Could not find paragraph containing: {needle!r}")]: the
    message is a function of the needle, which is what the exception is
    modelled to carry. *)
Inductive exn := ValueError (needle : str).

Inductive result (A : Type) :=
| Ok (a : A)
| Raise (e : exn).
Arguments Ok {A} a.
Arguments Raise {A} e.

(** Statements run on the world; an exception stops the run and leaves the
    world as it was when it was raised. *)
Definition M (A : Type) := World -> World * result A.

Definition ret {A} (a : A) : M A := fun w => (w, Ok a).

Definition bind {A B} (m : M A) (k : A -> M B) : M B := fun w =>
  match m w with
  | (w', Ok a) => k a w'
  | (w', Raise e) => (w', Raise e)
  end.

Definition raise {A} (e : exn) : M A := fun w => (w, Raise e).

Notation "c1 ;; c2" := (bind c1 (fun _ => c2))
  (at level 61, right associativity).

Definition with_doc (w : World) (d : Document) : World :=
  {| doc := d; trace := trace w |}.

Definition emit (e : event) : M unit := fun w =>
  ({| doc := doc w; trace := trace w ++ [e] |}, Ok tt).

(** The loop of [replace_paragraph_contains]: [Some] of the paragraphs after
    the assignment when the loop returns, [None] when it runs to its end. *)
Fixpoint replace_paragraph_contains_loop (needle replacement : str)
    (paragraphs : list Paragraph) : option (list Paragraph) :=
  match paragraphs with
  | [] => None
  | paragraph :: rest =>
      if contains needle (text paragraph)
      then Some (set_text paragraph replacement :: rest)
      else option_map (cons paragraph)
             (replace_paragraph_contains_loop needle replacement rest)
  end.

Definition replace_paragraph_contains (needle replacement : str) : M unit :=
  fun w =>
    match replace_paragraph_contains_loop needle replacement (doc w) with
    | Some paragraphs => (with_doc w paragraphs, Ok tt)
    | None => raise (ValueError needle) w
    end.

Definition replace_text_in_paragraph_body (needle replacement : str)
    (paragraph : Paragraph) : Paragraph :=
  if contains needle (text paragraph)
  then set_text paragraph (replace (text paragraph) needle replacement)
  else paragraph.

Definition replace_text_in_paragraph (needle replacement : str) : M unit :=
  fun w =>
    (with_doc w (map (replace_text_in_paragraph_body needle replacement) (doc w)),
     Ok tt).

(** The body of the last loop of [main]. *)
Definition normalize_body (paragraph : Paragraph) : Paragraph :=
  let normalized := replace (text paragraph) [nbsp] [space] in
  let stripped := strip normalized in
  let paragraph1 :=
    if startswith stripped (lit "STATE OF") && contains [rparen] stripped
    then
      let suffix_index := find stripped [rparen] in
      let suffix := slice_from stripped suffix_index in
      set_text paragraph (lit "STATE OF {state} " ++ suffix)
    else paragraph in
  if startswith stripped (lit "COUNTY") && contains (lit ")SS") stripped
  then set_text paragraph1 (lit "COUNTY OF {county} )SS.:")
  else paragraph1.

Definition normalization_scan : M unit := fun w =>
  (with_doc w (map normalize_body (doc w)), Ok tt).

Definition save (path : str) : M unit := fun w => emit (Saved path (doc w)) w.

Definition print (msg : str) : M unit := emit (Printed msg).

(** One call of [main] to a rewrite function. *)
Inductive call :=
| ParagraphContains (needle replacement : str)
| TextInParagraph (needle replacement : str).

Definition exec (c : call) : M unit :=
  match c with
  | ParagraphContains needle replacement =>
      replace_paragraph_contains needle replacement
  | TextInParagraph needle replacement =>
      replace_text_in_paragraph needle replacement
  end.

Fixpoint exec_all (cs : list call) : M unit :=
  match cs with
  | [] => ret tt
  | c :: cs' => exec c ;; exec_all cs'
  end.

(** The calls of [main] before its last loop, in source order. *)
Definition rewrite_calls : list call :=
  [
    ParagraphContains
      (lit "This Agreement dated")
      (lit "This Agreement dated {agreementDate} is between (Buyer: "
         ++ lit "{buyerName}, {buyerFullAddress}, {buyerPhone}, {buyerEmail}) "
         ++ lit "herein referred to as Buyer and {breederName} of {kennelName} "
         ++ lit "herein referred to as Breeder.");
    ParagraphContains
      (lit "In Consideration of the total sum")
      (lit "In Consideration of the total sum of {salePrice} "
         ++ lit "({salePriceWords}) and the mutual promises contained herein, "
         ++ lit "Breeder has agreed to sell, and Buyer has agreed to purchase "
         ++ lit "{puppyCount} ({maleCount} male, {femaleCount} female) American "
         ++ lit "Bully puppy.");
    ParagraphContains
      (lit "Born on")
      (lit "Born on {puppyDOBLong}");
    ParagraphContains
      (lit "Sire:")
      (lit "Sire: {sireName}");
    ParagraphContains
      (lit "Dam:")
      (lit "Dam: {damName}");
    ParagraphContains
      (lit "The puppy is sold as a pet")
      (lit "{#isPet}The puppy is sold as a pet, with no registration, and "
         ++ lit "must be spayed/neutered at no earlier than 18 months of age no "
         ++ lit "later than two years of age (as early spay/neuter can be "
         ++ lit "detrimental to the dogs overall health and wellness).{/isPet}");
    ParagraphContains
      (lit "The puppy is sold with breeding rights")
      (lit "{#isFullRights}The puppy is sold with breeding rights, or "
         ++ [ldquote]
         ++ lit "Full Rights"
         ++ [dquote]
         ++ lit " registration. Buyer will make a good faith effort to show the "
         ++ lit "dog or allow the dog to be shown by the Breeder, to its ABKC "
         ++ lit "and UKC Championship.{/isFullRights}");
    ParagraphContains
      (lit "If No Registration")
      (lit "{#isPet}If "
         ++ [dquote]
         ++ lit "No Registration"
         ++ [dquote]
         ++ lit " has been selected, this puppy is being sold as pet quality "
         ++ lit "only, intended for companionship with no guarantees as to "
         ++ lit "breeding soundness, show-ability, work ability, trainability, "
         ++ lit "temperament or size at maturity. The Buyer agrees to NO "
         ++ lit "BREEDING of this dog (accidental or intentional).  Buyer is to "
         ++ lit "have the dog altered (Spay/Neuter/Vasectomy/Hysterectomy) by "
         ++ lit "the age of 2 years old (24 months) but no earlier than 18 "
         ++ lit "months of age.{/isPet}");
    ParagraphContains
      (lit "The Buyer affirms that their purchase")
      (lit "{#isPet}The Buyer affirms that their purchase is for a "
         ++ [dquote]
         ++ lit "pet home"
         ++ [dquote]
         ++ lit " only and not for breeding purposes. If the dog produces a "
         ++ lit "litter without the knowledge and written consent of the "
         ++ lit "Breeder, the Breeder will be entitled to compensation in the "
         ++ lit "amount of $5,000 (Five Thousand Dollars and no Cents) for "
         ++ lit "breach of contract terms. The Buyer herein agrees to pay the "
         ++ lit "Breeder an additional $2,000 (Two Thousand Dollars and no "
         ++ lit "cents) per puppy produced (dead or alive) from the whelping no "
         ++ lit "later than 30 days after the birth of the unwarranted "
         ++ lit "breeding.{/isPet}");
    ParagraphContains
      (lit "The General Health Guarantee")
      (lit "{#isPet}The General Health Guarantee also becomes null and void "
         ++ lit "if spay/neuter contract is violated.{/isPet}");
    TextInParagraph
      (lit "State of ________, County of ________")
      (lit "State of {state}, County of {county}");
    TextInParagraph
      (lit "State of ___________ County of ____________")
      (lit "State of {state} County of {county}");
    TextInParagraph
      (lit "State of (______), County of (_____)")
      (lit "State of ({state}), County of ({county})");
    ParagraphContains
      (lit "Signed on")
      (lit "Signed on {signingDate}");
    ParagraphContains
      (lit "On this _____ day of _________")
      (lit "On this {signingDate}, before me, the undersigned, a Notary "
         ++ lit "Public in and for said State, personally appeared "
         ++ lit "_____________________, personally known to me or proved to me "
         ++ lit "on the basis of satisfactory evidence to be the individual "
         ++ lit "whose name is subscribed to the within Instrument and "
         ++ lit "acknowledged to me that s/he/they executed the same in "
         ++ lit "her/his/their capacity, and that by her/his/their signature on "
         ++ lit "the instrument, the individuals, or the person upon behalf of "
         ++ lit "which the individuals acted, executed the instrument.");
    ParagraphContains
      (lit "This Agreement is made and entered into this ______ day of")
      (lit "This Agreement is made and entered into this {agreementDate}");
    ParagraphContains
      (lit "By and between")
      (lit "By and between {breederName} (Breeder) and {buyerName} (Buyer),");
    ParagraphContains
      (lit "For the purpose of setting forth the terms")
      (lit "For the purpose of setting forth the terms and conditions of "
         ++ lit "purchase by the Buyer of a Purebred American Bully from the "
         ++ lit "litter born on {puppyDOBLong}. Out of {sireName} (Sire), and "
         ++ lit "{damName} (Dam). For {salePrice} the Breeder agrees to sell and "
         ++ lit "buyer agrees to purchase a {femaleCount} female, {maleCount} "
         ++ lit "male companion puppy from the litter described above subject to "
         ++ lit "the following terms.")
  ].

Definition main : M unit :=
  exec_all rewrite_calls ;;
  normalization_scan ;;
  save TARGET_PATH ;;
  print (lit "Wrote updated template to " ++ TARGET_PATH).

(** A run on the document loaded from the source path. *)
Definition run (d : Document) : World * result unit :=
  main {| doc := d; trace := [] |}.

(** The documents saved during a run, oldest first. *)
Fixpoint saves (t : list event) : list Document :=
  match t with
  | [] => []
  | Saved _ d :: t' => d :: saves t'
  | Printed _ :: t' => saves t'
  end.

End UpdateContractTemplate.

(* ================================================================== *)
(** ** tools/dump_contract.py *)

Module DumpContract.

(** One [f.write(f"{i}: {text}\n")]. *)
Definition write_line (i : nat) (text : str) : str :=
  str_of_nat i ++ lit ": " ++ text ++ [newline].

(** The loop over [enumerate(doc.paragraphs)], from index [i] on; [f] is
    what has been written to the file so far. *)
Fixpoint dump_loop (i : nat) (paragraphs : list Paragraph) (f : str) : str :=
  match paragraphs with
  | [] => f
  | paragraph :: rest =>
      let text := strip (text paragraph) in
      let f' := match text with
                | [] => f
                | _ :: _ => f ++ write_line i text
                end in
      dump_loop (S i) rest f'
  end.

(** The document after the run and the contents of the report. *)
Definition dump_contract (d : Document) : Document * str :=
  (d, dump_loop 0 d []).

End DumpContract.

(* ================================================================== *)
(** ** Vocabulary of the specification *)

(** [needle] is a substring of [s]. *)
Definition occurs_in (needle s : str) : Prop :=
  exists a b, s = a ++ needle ++ b.

(** [s] starts with [p]. *)
Definition starts_with (s p : str) : Prop :=
  exists r, s = p ++ r.

(** [sep.join(segs)]; the segments around the occurrences of a needle are
    the text that surrounds them. *)
Definition join (sep : str) (segs : list str) : str :=
  match segs with
  | [] => []
  | s :: rest => s ++ flat_map (fun x => sep ++ x) rest
  end.

(** The text the normalization scan tests: non-breaking spaces mapped to
    spaces, then trimmed. *)
Definition normalized (t : str) : str := replace t [nbsp] [space].
Definition normalized_trimmed (t : str) : str := strip (normalized t).

(** What [normalized] does to one character. *)
Definition unbreak (c : char) : char := if (nbsp =? c)%N then space else c.

(** Paragraphs by position: [enumerate(doc.paragraphs)]. *)
Definition enumerate (d : Document) : list (nat * Paragraph) :=
  combine (seq 0 (length d)) d.

(** The line of one enumerated paragraph, if it has one: none when the
    trimmed text is empty. *)
Definition line_of (ip : nat * Paragraph) : list str :=
  match strip (text (snd ip)) with
  | [] => []
  | t => [str_of_nat (fst ip) ++ lit ": " ++ t ++ [newline]]
  end.

(** The lines of the dump as the specification describes them: one line
    for each paragraph whose trimmed text is not empty, carrying the
    position of the paragraph in the document, in document order. *)
Definition report_lines (d : Document) : list str :=
  flat_map line_of (enumerate d).

Definition blank (p : Paragraph) : bool :=
  match strip (text p) with
  | [] => true
  | _ :: _ => false
  end.

(** A document given by the texts of its paragraphs, the elements numbered
    from [i]. *)
Fixpoint doc_from (i : nat) (ts : list str) : Document :=
  match ts with
  | [] => []
  | t :: ts' => {| elem := i; text := t |} :: doc_from (S i) ts'
  end.

Definition doc_of_texts (ts : list str) : Document := doc_from 0 ts.

(** *** Running [main] on its own output *)

Module Rerun.
Import UpdateContractTemplate.

(** The needles of the [replace_paragraph_contains] calls of [main]. *)
Definition required_needles : list str :=
  flat_map (fun c => match c with
                     | ParagraphContains needle _ => [needle]
                     | TextInParagraph _ _ => []
                     end) rewrite_calls.

(** Those of them that the replacement of their own call does not contain:
    once such a call has rewritten its paragraph, the paragraph no longer
    answers to the needle. *)
Definition stale_needles : list str :=
  flat_map (fun c => match c with
                     | ParagraphContains needle replacement =>
                         if contains needle replacement then [] else [needle]
                     | TextInParagraph _ _ => []
                     end) rewrite_calls.

(** The number of paragraphs whose text, non-breaking spaces read as
    spaces, contains [needle]. *)
Definition norm_count (needle : str) (d : Document) : nat :=
  length (filter (fun p => contains needle (normalized (text p))) d).

Definition mem (c : char) (s : str) : bool := existsb (N.eqb c) s.

(** A call of [main] cannot put [needle] into a paragraph that did not
    hold it: a whole replacement does not contain it; a substring
    replacement does not contain it and neither begins nor ends with one of
    its characters. *)
Definition call_cannot_create (needle : str) (c : call) : bool :=
  match c with
  | ParagraphContains _ replacement =>
      negb (contains needle (normalized replacement))
  | TextInParagraph _ replacement =>
      match replacement with
      | [] => false
      | h :: _ =>
          negb (mem h needle) && negb (mem (last replacement h) needle)
          && negb (contains needle replacement) && negb (mem nbsp replacement)
      end
  end.

(** Nothing [main] writes can put [needle] into a paragraph. *)
Definition cannot_be_created (needle : str) : bool :=
  negb (mem nbsp needle) && negb (mem rparen needle)
  && forallb (call_cannot_create needle) rewrite_calls
  && negb (contains needle (lit "STATE OF {state} "))
  && negb (contains needle (lit "COUNTY OF {county} )SS.:")).

(** A document in which every stale needle has two paragraphs. *)
Definition twice_document : Document :=
  doc_of_texts (required_needles ++ stale_needles).

(** A document with one paragraph for each required needle. *)
Definition once_document : Document := doc_of_texts required_needles.

End Rerun.

(** A paragraph that contains "COUNTY" and ")SS" and starts with neither. *)
Definition county_inside : Paragraph :=
  {| elem := 0; text := lit "THE COUNTY )SS" |}.

(** Running [m] neither adds, removes nor reorders paragraphs. *)
Definition keeps_paragraphs (m : UpdateContractTemplate.M unit) : Prop :=
  forall w,
    map elem (UpdateContractTemplate.doc (fst (m w)))
    = map elem (UpdateContractTemplate.doc w).

(* ================================================================== *)
(** ** Further vocabulary *)

(** The number of paragraphs whose text contains [needle]. *)
Definition holding (needle : str) (d : Document) : nat :=
  length (filter (fun p => contains needle (text p)) d).

Definition str_eqb (a b : str) : bool :=
  if list_eq_dec N.eq_dec a b then true else false.

Module Overlap.
Import UpdateContractTemplate.

(** Two texts differ at a position both have. *)
Fixpoint clash (a b : str) : bool :=
  match a, b with
  | x :: a', y :: b' => negb (x =? y)%N || clash a' b'
  | _, _ => false
  end.

(** No occurrence of [needle] can share a character with an inserted [r]:
    the first character of [r] is not in [needle] after its start, so no
    occurrence runs into [r] from the left; the first character of
    [needle] is not in [r] after its start, so none starts inside [r]; and
    the two differ at a common position, so none starts where [r] does. *)
Definition cannot_overlap (needle r : str) : bool :=
  match needle, r with
  | n0 :: needle', h :: r' =>
      negb (Rerun.mem h needle') && negb (Rerun.mem n0 r') && clash needle r
  | _, _ => false
  end.

Definition needle_of (c : call) : str :=
  match c with
  | ParagraphContains needle _ => needle
  | TextInParagraph needle _ => needle
  end.

(** No call of [cs] before the first [replace_paragraph_contains] call for
    [needle] can put [needle] into a paragraph, and there is such a call. *)
Fixpoint guarded (needle : str) (cs : list call) : bool :=
  match cs with
  | [] => false
  | ParagraphContains m r :: cs' =>
      if str_eqb m needle then true
      else negb (contains needle r) && guarded needle cs'
  | TextInParagraph _ r :: cs' => cannot_overlap needle r && guarded needle cs'
  end.

(** The replacement texts of the [replace_paragraph_contains] calls. *)
Definition replacements (cs : list call) : list str :=
  flat_map (fun c => match c with
                     | ParagraphContains _ r => [r]
                     | TextInParagraph _ _ => []
                     end) cs.

(** No call of [cs] looks for something [r] contains. *)
Definition stable_after (r : str) (cs : list call) : bool :=
  forallb (fun c => negb (contains (needle_of c) r)) cs.

(** The scan leaves a paragraph with text [r] as it is. *)
Definition scan_fixed (r : str) : bool :=
  str_eqb (text (normalize_body {| elem := 0; text := r |})) r.

(** Each whole replacement of [cs] outlives the calls after it and the
    scan. *)
Fixpoint all_stable (cs : list call) : bool :=
  match cs with
  | [] => true
  | ParagraphContains _ r :: cs' =>
      stable_after r cs' && scan_fixed r && all_stable cs'
  | TextInParagraph _ _ :: cs' => all_stable cs'
  end.

Fixpoint distinct (l : list str) : bool :=
  match l with
  | [] => true
  | x :: l' => negb (existsb (str_eqb x) l') && distinct l'
  end.

End Overlap.

(** The lines of the paragraphs [d] when the first of them stands at
    position [a]. *)
Definition report_lines_from (a : nat) (d : Document) : list str :=
  flat_map line_of (combine (seq a (length d)) d).

Definition is_digit (c : char) : bool := ((48 <=? c) && (c <=? 57))%N.

(* ================================================================== *)
(** ** The document container on arbitrary texts *)

(** [paragraph.text = s] in the container library.  The paragraph is
    cleared and a run is filled from [s] character by character: a tab
    becomes a tab element, a line feed or a carriage return becomes a line
    break, and the other characters are collected and written as a text
    node when a tab or break is met and at the end.  A tab element reads
    back as a tab and a line break as a line feed, so a carriage return is
    not kept; and the XML layer refuses a text node with a character that
    XML does not have, with an exception raised from the middle of the
    assignment. *)
Module Docx.

(** The characters a text node may hold: no control character other than
    tab, line feed and carriage return, no surrogate, not U+FFFE or
    U+FFFF. *)
Definition xml_char (c : char) : bool :=
  (((c =? 9) || (c =? 10) || (c =? 13) || (32 <=? c))
   && negb ((55296 <=? c) && (c <=? 57343))
   && negb ((c =? 65534) || (c =? 65535)))%N.

(** Filling the run: [written] is what the run reads back as so far,
    [bfr] the characters collected for the next text node.  The result is
    the text of the run and whether the XML layer raised. *)
Fixpoint append_text (written bfr s : str) : str * bool :=
  match s with
  | [] =>
      if forallb xml_char bfr then (written ++ bfr, false)
      else (written, true)
  | c :: s' =>
      if (c =? 9)%N
      then if forallb xml_char bfr
           then append_text (written ++ bfr ++ [9%N]) [] s'
           else (written, true)
      else if ((c =? 10) || (c =? 13))%N
      then if forallb xml_char bfr
           then append_text (written ++ bfr ++ [newline]) [] s'
           else (written, true)
      else append_text written (bfr ++ [c]) s'
  end.

(** [paragraph.text = s]: the paragraph afterwards and whether the
    assignment raised. *)
Definition assign (p : Paragraph) (s : str) : Paragraph * bool :=
  let r := append_text [] [] s in
  ({| elem := elem p; text := fst r |}, snd r).

(** A text the container stores as it is given: every character is one
    XML has and none is a carriage return. *)
Definition verbatim (s : str) : bool :=
  forallb (fun c => xml_char c && negb (c =? 13)%N) s.

End Docx.

(** The rewrite functions of [update_contract_template.py] with the
    assignment of the container, for arbitrary needles, replacements and
    paragraph texts. *)
Module General.
Import UpdateContractTemplate.

(** How a call ends. *)
Inductive outcome :=
| Returned
| NotFound (needle : str)   (* the [ValueError] of [replace_paragraph_contains] *)
| NotStorable.              (* the exception of the container's assignment *)

(** The loop of [replace_paragraph_contains]: [None] when it runs to its
    end, else the paragraphs after the assignment and whether the
    assignment raised. *)
Fixpoint replace_paragraph_contains_loop (needle replacement : str)
    (paragraphs : list Paragraph) : option (list Paragraph * bool) :=
  match paragraphs with
  | [] => None
  | paragraph :: rest =>
      if contains needle (text paragraph)
      then let r := Docx.assign paragraph replacement in
           Some (fst r :: rest, snd r)
      else match replace_paragraph_contains_loop needle replacement rest with
           | Some (rest', raised) => Some (paragraph :: rest', raised)
           | None => None
           end
  end.

Definition replace_paragraph_contains (needle replacement : str) (w : World)
    : World * outcome :=
  match replace_paragraph_contains_loop needle replacement (doc w) with
  | Some (paragraphs, raised) =>
      ({| doc := paragraphs; trace := trace w |},
       if raised then NotStorable else Returned)
  | None => (w, NotFound needle)
  end.

(** The loop of [replace_text_in_paragraph]: it stops at the first
    assignment that raises. *)
Fixpoint replace_text_in_paragraph_loop (needle replacement : str)
    (paragraphs : list Paragraph) : list Paragraph * bool :=
  match paragraphs with
  | [] => ([], false)
  | paragraph :: rest =>
      if contains needle (text paragraph)
      then let r := Docx.assign paragraph
                      (replace (text paragraph) needle replacement) in
           if snd r then (fst r :: rest, true)
           else let r' := replace_text_in_paragraph_loop needle replacement rest in
                (fst r :: fst r', snd r')
      else let r' := replace_text_in_paragraph_loop needle replacement rest in
           (paragraph :: fst r', snd r')
  end.

Definition replace_text_in_paragraph (needle replacement : str) (w : World)
    : World * outcome :=
  let r := replace_text_in_paragraph_loop needle replacement (doc w) in
  ({| doc := fst r; trace := trace w |},
   if snd r then NotStorable else Returned).

End General.

(** [t'] is [t] with all occurrences of [needle] replaced by
    [replacement]: the occurrences are taken from the left, each the
    leftmost one in what is left of the text, and the text around them is
    kept.  The empty needle occurs before every character and at the
    end. *)
Inductive replaced_all (needle replacement : str) : str -> str -> Prop :=
| replaced_none (t : str) :
    ~ occurs_in needle t ->
    replaced_all needle replacement t t
| replaced_next (pre rest rest' : str) :
    needle <> [] ->
    ~ occurs_in needle (pre ++ removelast needle) ->
    replaced_all needle replacement rest rest' ->
    replaced_all needle replacement
      (pre ++ needle ++ rest) (pre ++ replacement ++ rest')
| replaced_empty (t : str) :
    needle = [] ->
    replaced_all needle replacement t
      (replacement ++ flat_map (fun c => c :: replacement) t).

(* ================================================================== *)
(** ** start_dev.py *)

Module StartDev.

(** [os.environ.get("PATH", "")] on the variable, [None] when unset. *)
Definition get_path (path : option str) : str :=
  match path with
  | Some p => p
  | None => []
  end.

(** The step of [main] that puts the Rust toolchain on the search path:
    the variable afterwards and what was printed.  [rust_bin] is
    [str(rust_path)]. *)
Definition add_rust_to_path (rust_bin : str) (path : option str)
    : option str * list str :=
  let current_path := get_path path in
  if negb (contains rust_bin current_path)
  then (Some (rust_bin ++ lit ";" ++ current_path),
        [lit "Added Rust to PATH: " ++ rust_bin])
  else (path, []).

End StartDev.

(* ================================================================== *)
(** * Properties *)

(** ** Strings *)

Section StrFacts.

Lemma startswith_nil (s : str) : startswith s [] = true.
Proof. now destruct s. Qed.

Lemma startswith_iff (s p : str) :
  startswith s p = true <-> starts_with s p.
Proof.
  unfold starts_with. revert s.
  induction p as [|c p IH]; intros s.
  - rewrite startswith_nil. split; [intros _; now exists s | reflexivity].
  - destruct s as [|d s]; simpl.
    + split; [discriminate | intros [r Hr]; discriminate].
    + rewrite andb_true_iff, N.eqb_eq, IH. split.
      * intros [-> [r ->]]. now exists r.
      * intros [r Hr]. injection Hr as -> ->. split; [reflexivity | now exists r].
Qed.

Lemma startswith_app (p r : str) : startswith (p ++ r) p = true.
Proof. apply startswith_iff. now exists r. Qed.

Lemma startswith_extend (s x p : str) :
  startswith s p = true -> startswith (s ++ x) p = true.
Proof.
  rewrite !startswith_iff. intros [r ->]. exists (r ++ x).
  now rewrite app_assoc.
Qed.

Lemma contains_iff (needle s : str) :
  contains needle s = true <-> occurs_in needle s.
Proof.
  unfold occurs_in. induction s as [|c s IH].
  - cbn [contains]. rewrite orb_false_r, startswith_iff. split.
    + intros [r Hr]. exists [], r. exact Hr.
    + intros [a [b H]]. destruct a; [now exists b | discriminate].
  - cbn [contains]. rewrite orb_true_iff, startswith_iff, IH. split.
    + intros [[r Hr] | [a [b Hab]]].
      * exists [], r. exact Hr.
      * exists (c :: a), b. simpl. now f_equal.
    + intros [a [b Hab]]. destruct a as [|c' a].
      * left. now exists b.
      * right. injection Hab as _ ->. now exists a, b.
Qed.

Lemma contains_false_iff (needle s : str) :
  contains needle s = false <-> ~ occurs_in needle s.
Proof.
  rewrite <- contains_iff. destruct (contains needle s); split; intros; easy.
Qed.

Lemma contains_nil (s : str) : contains [] s = true.
Proof. destruct s; reflexivity. Qed.

Lemma occurs_in_nil (s : str) : occurs_in [] s.
Proof. now exists [], s. Qed.

Lemma occurs_in_refl (s : str) : occurs_in s s.
Proof. exists [], []. simpl. now rewrite app_nil_r. Qed.

Lemma occurs_in_app_l (n a b : str) : occurs_in n a -> occurs_in n (a ++ b).
Proof.
  intros [x [y ->]]. exists x, (y ++ b). now rewrite <- !app_assoc.
Qed.

Lemma occurs_in_app_r (n a b : str) : occurs_in n b -> occurs_in n (a ++ b).
Proof.
  intros [x [y ->]]. exists (a ++ x), y. now rewrite <- !app_assoc.
Qed.

Lemma occurs_in_trans (n m s : str) :
  occurs_in n m -> occurs_in m s -> occurs_in n s.
Proof.
  intros Hn [x [y ->]]. apply occurs_in_app_r, occurs_in_app_l, Hn.
Qed.

Lemma occurs_in_length (n s : str) :
  occurs_in n s -> length n <= length s.
Proof. intros [a [b ->]]. rewrite !length_app. lia. Qed.

End StrFacts.

(** ** [str.replace] *)

Section ReplaceFacts.

Variables old new : str.

Lemma replace_from_skip (k : nat) (s : str) :
  replace_from old new k s = replace_from old new 0 (skipn k s).
Proof.
  revert k. induction s as [|c s IH]; intros k.
  - now rewrite skipn_nil.
  - destruct k as [|k]; [reflexivity|]. cbn [replace_from skipn]. apply IH.
Qed.

Lemma replace_from_nomatch (c : char) (s : str) :
  startswith (c :: s) old = false ->
  replace_from old new 0 (c :: s) = c :: replace_from old new 0 s.
Proof. intros H. cbn [replace_from]. now rewrite H. Qed.

Lemma replace_from_hit (s : str) :
  old <> [] ->
  startswith s old = true ->
  replace_from old new 0 s
  = new ++ replace_from old new 0 (skipn (length old) s).
Proof.
  intros Hne Hsw. destruct s as [|c s].
  - destruct old; [congruence | discriminate].
  - cbn [replace_from]. rewrite Hsw. f_equal.
    rewrite replace_from_skip. f_equal.
    destruct (length old) as [|k] eqn:Hk.
    + apply length_zero_iff_nil in Hk. congruence.
    + simpl. now rewrite Nat.sub_0_r.
Qed.

Lemma replace_from_match (rest : str) :
  old <> [] ->
  replace_from old new 0 (old ++ rest) = new ++ replace_from old new 0 rest.
Proof.
  intros Hne. rewrite replace_from_hit by (auto using startswith_app).
  now rewrite skipn_app, skipn_all, Nat.sub_diag.
Qed.

Lemma replace_from_absent (s : str) :
  contains old s = false -> replace_from old new 0 s = s.
Proof.
  induction s as [|c s IH]; [reflexivity|].
  cbn [contains]. rewrite orb_false_iff. intros [Hsw Hc].
  rewrite (replace_from_nomatch _ _ Hsw). f_equal. now apply IH.
Qed.

(** The text falls into the segments around the occurrences that are
    replaced: the segments are kept, the occurrences between them become
    [new], and no segment contains [old]. *)
Lemma replace_from_segments (s : str) :
  old <> [] ->
  exists segs,
    segs <> [] /\
    s = join old segs /\
    replace_from old new 0 s = join new segs /\
    Forall (fun g => ~ occurs_in old g) segs.
Proof.
  intros Hne.
  assert (Hnil : ~ occurs_in old []).
  { intros H. apply occurs_in_length in H. destruct old; [congruence|simpl in H; lia]. }
  remember (length s) as n eqn:Hn.
  revert s Hn. induction n as [n IH] using lt_wf_ind. intros s Hn.
  destruct s as [|c s].
  - exists [[]]. repeat split; auto. discriminate.
  - destruct (startswith (c :: s) old) eqn:Hsw.
    + apply startswith_iff in Hsw. destruct Hsw as [rest Hrest].
      destruct (IH (length rest)) with (s := rest) as [segs [Hne' [Hs [Hr Hf]]]];
        [|reflexivity|].
      { subst n. rewrite Hrest, length_app.
        destruct old; [congruence | simpl; lia]. }
      rewrite Hrest. exists ([] :: segs).
      destruct segs as [|g gs]; [congruence|].
      split; [discriminate|]. split; [|split].
      * rewrite Hs. simpl. now rewrite <- app_assoc.
      * rewrite replace_from_match by assumption. rewrite Hr. simpl.
        now rewrite <- app_assoc.
      * constructor; assumption.
    + destruct (IH (length s)) with (s := s) as [segs [Hne' [Hs [Hr Hf]]]];
        [subst n; simpl; lia | reflexivity |].
      rewrite (replace_from_nomatch _ _ Hsw).
      destruct segs as [|g gs]; [congruence|].
      exists ((c :: g) :: gs). split; [discriminate|]. split; [|split].
      * simpl in *. now rewrite Hs.
      * simpl in *. now rewrite Hr.
      * inversion Hf as [|? ? Hg Hgs]; subst. constructor; [|assumption].
        intros H. apply contains_iff in H. cbn [contains] in H.
        apply orb_true_iff in H. destruct H as [H|H].
        -- change (c :: join old (g :: gs))
             with ((c :: g) ++ flat_map (fun x => old ++ x) gs) in Hsw.
           rewrite (startswith_extend _ _ _ H) in Hsw. discriminate.
        -- apply Hg. now apply contains_iff.
Qed.

End ReplaceFacts.

Lemma replace_absent (s old new : str) :
  ~ occurs_in old s -> replace s old new = s.
Proof.
  intros H. destruct old as [|o old'].
  - destruct H. apply occurs_in_nil.
  - apply replace_from_absent. now apply contains_false_iff.
Qed.

Lemma flat_map_singletons (new s : str) :
  flat_map (fun x => new ++ x) (map (fun c => [c]) s ++ [[]])
  = new ++ flat_map (fun c => c :: new) s.
Proof.
  induction s as [|c s IH]; simpl.
  - now rewrite !app_nil_r.
  - rewrite IH. now rewrite <- app_assoc.
Qed.

(** [s.replace(old, new)] is [new.join(segs)] for segments [segs] with
    [old.join(segs) = s]. *)
Lemma replace_segments (s old new : str) :
  exists segs,
    s = join old segs /\
    replace s old new = join new segs /\
    (old <> [] -> Forall (fun g => ~ occurs_in old g) segs).
Proof.
  destruct old as [|o old'].
  - exists ([] :: map (fun c => [c]) s ++ [[]]). split; [|split].
    + unfold join. rewrite flat_map_singletons. simpl.
      induction s; simpl; congruence.
    + unfold join, replace. now rewrite flat_map_singletons.
    + congruence.
  - destruct (replace_from_segments (o :: old') new s) as [segs [_ [H1 [H2 H3]]]];
      [congruence|].
    exists segs. auto.
Qed.

(** Replacing one character by another maps over the text. *)
Lemma replace_char (a b : char) (s : str) :
  replace s [a] [b] = map (fun c => if (a =? c)%N then b else c) s.
Proof.
  unfold replace. induction s as [|c s IH]; [reflexivity|].
  cbn [replace_from map startswith length]. rewrite startswith_nil, andb_true_r.
  destruct (a =? c)%N; simpl; now rewrite IH.
Qed.

(* ================================================================== *)
(** ** The rewrite functions *)

Import UpdateContractTemplate.

Section FirstMatch.

Variables needle replacement : str.

Lemma loop_returns (ps ps' : list Paragraph) :
  replace_paragraph_contains_loop needle replacement ps = Some ps' ->
  exists pre p post,
    ps = pre ++ p :: post /\
    (forall q, In q pre -> ~ occurs_in needle (text q)) /\
    occurs_in needle (text p) /\
    ps' = pre ++ set_text p replacement :: post.
Proof.
  revert ps'. induction ps as [|p ps IH]; intros ps' H; [discriminate|].
  cbn [replace_paragraph_contains_loop] in H.
  destruct (contains needle (text p)) eqn:Hc.
  - injection H as <-. exists [], p, ps. repeat split.
    + intros q [].
    + now apply contains_iff.
  - destruct (replace_paragraph_contains_loop needle replacement ps) as [ps1|];
      [|discriminate].
    injection H as <-.
    destruct (IH ps1 eq_refl) as [pre [p0 [post [-> [Hpre [Hp ->]]]]]].
    exists (p :: pre), p0, post. repeat split; auto.
    intros q [<-|Hq]; [now apply contains_false_iff | now apply Hpre].
Qed.

Lemma loop_falls_through (ps : list Paragraph) :
  replace_paragraph_contains_loop needle replacement ps = None <->
  (forall q, In q ps -> ~ occurs_in needle (text q)).
Proof.
  induction ps as [|p ps IH]; cbn [replace_paragraph_contains_loop].
  - split; [intros _ q [] | reflexivity].
  - destruct (contains needle (text p)) eqn:Hc.
    + split; [discriminate|]. intros H. exfalso.
      apply (H p); [now left | now apply contains_iff].
    + destruct (replace_paragraph_contains_loop needle replacement ps).
      * split; [discriminate|]. intros H.
        assert (Hn : Some l = None) by (apply IH; intros q Hq; apply H; now right).
        discriminate.
      * split; [|reflexivity]. intros _ q [<-|Hq].
        -- now apply contains_false_iff.
        -- now apply (proj1 IH).
Qed.

End FirstMatch.

(** The two outcomes of [replace_paragraph_contains]. *)
Lemma replace_paragraph_contains_cases
    (needle replacement : str) (w : World) :
  (exists pre p post,
      doc w = pre ++ p :: post /\
      (forall q, In q pre -> ~ occurs_in needle (text q)) /\
      occurs_in needle (text p) /\
      replace_paragraph_contains needle replacement w
      = (with_doc w (pre ++ set_text p replacement :: post), Ok tt))
  \/
  ((forall q, In q (doc w) -> ~ occurs_in needle (text q)) /\
   replace_paragraph_contains needle replacement w
   = (w, Raise (ValueError needle))).
Proof.
  unfold replace_paragraph_contains.
  destruct (replace_paragraph_contains_loop needle replacement (doc w))
    as [ps'|] eqn:E.
  - left. apply loop_returns in E.
    destruct E as [pre [p [post [H1 [H2 [H3 ->]]]]]].
    exists pre, p, post. auto.
  - right. split; [exact (proj1 (loop_falls_through _ _ _) E) | reflexivity].
Qed.

(** What [replace_text_in_paragraph] does to one paragraph. *)
Lemma replace_text_in_paragraph_body_spec (needle replacement : str)
    (p : Paragraph) :
  elem (replace_text_in_paragraph_body needle replacement p) = elem p /\
  ((~ occurs_in needle (text p) /\
    replace_text_in_paragraph_body needle replacement p = p)
   \/
   (occurs_in needle (text p) /\
    exists segs,
      text p = join needle segs /\
      text (replace_text_in_paragraph_body needle replacement p)
      = join replacement segs /\
      (needle <> [] -> Forall (fun g => ~ occurs_in needle g) segs))).
Proof.
  unfold replace_text_in_paragraph_body.
  destruct (contains needle (text p)) eqn:Hc.
  - split; [reflexivity|]. right. split; [now apply contains_iff|].
    destruct (replace_segments (text p) needle replacement) as [segs H].
    exists segs. exact H.
  - split; [reflexivity|]. left. split; [now apply contains_false_iff | reflexivity].
Qed.

(* ================================================================== *)
(** ** Assignments the container stores as given *)

Section Verbatim.

Lemma append_text_verbatim (s : str) :
  Docx.verbatim s = true ->
  forall written bfr,
    forallb Docx.xml_char bfr = true ->
    Docx.append_text written bfr s = (written ++ bfr ++ s, false).
Proof.
  induction s as [|c s IH]; intros Hs written bfr Hb.
  - cbn [Docx.append_text]. now rewrite Hb, app_nil_r.
  - cbn [Docx.verbatim forallb] in Hs. rewrite !andb_true_iff in Hs.
    destruct Hs as [[Hc Hcr] Hs]. apply negb_true_iff in Hcr.
    cbn [Docx.append_text]. rewrite Hb.
    destruct (c =? 9)%N eqn:E9.
    + apply N.eqb_eq in E9. subst c.
      rewrite (IH Hs) by reflexivity. now rewrite <- !app_assoc.
    + rewrite Hcr, orb_false_r. destruct (c =? 10)%N eqn:E10.
      * apply N.eqb_eq in E10. subst c.
        rewrite (IH Hs) by reflexivity. now rewrite <- !app_assoc.
      * rewrite (IH Hs).
        -- now rewrite <- !app_assoc.
        -- rewrite forallb_app, Hb. cbn [forallb]. now rewrite Hc.
Qed.

(** A text stored as given reads back as it was assigned. *)
Lemma assign_verbatim (p : Paragraph) (s : str) :
  Docx.verbatim s = true -> Docx.assign p s = (set_text p s, false).
Proof.
  intros H. unfold Docx.assign.
  now rewrite (append_text_verbatim s H [] [] eq_refl).
Qed.

Lemma general_loop_verbatim (needle replacement : str)
    (ps : list Paragraph) :
  Docx.verbatim replacement = true ->
  General.replace_paragraph_contains_loop needle replacement ps
  = option_map (fun ps' => (ps', false))
      (replace_paragraph_contains_loop needle replacement ps).
Proof.
  intros H. induction ps as [|p ps IH]; [reflexivity|].
  cbn [General.replace_paragraph_contains_loop replace_paragraph_contains_loop].
  destruct (contains needle (text p)).
  - now rewrite (assign_verbatim p replacement H).
  - rewrite IH.
    now destruct (replace_paragraph_contains_loop needle replacement ps).
Qed.

(** With a replacement stored as given, [replace_paragraph_contains]
    ends as its loop over the texts tells. *)
Lemma general_replace_paragraph_contains_verbatim
    (needle replacement : str) (w : World) :
  Docx.verbatim replacement = true ->
  General.replace_paragraph_contains needle replacement w
  = match replace_paragraph_contains needle replacement w with
    | (w', Ok _) => (w', General.Returned)
    | (w', Raise (ValueError n)) => (w', General.NotFound n)
    end.
Proof.
  intros H. unfold General.replace_paragraph_contains,
    replace_paragraph_contains, raise.
  rewrite (general_loop_verbatim needle replacement (doc w) H).
  now destruct (replace_paragraph_contains_loop needle replacement (doc w)).
Qed.

Lemma In_join (c : char) (sep : str) (segs : list str) :
  In c (join sep segs) -> In c sep \/ exists g, In g segs /\ In c g.
Proof.
  destruct segs as [|g segs]; [intros []|]. cbn [join]. intros H.
  apply in_app_or in H. destruct H as [H|H].
  - right. exists g. split; [now left | exact H].
  - induction segs as [|g1 segs IH]; [destruct H|].
    cbn [flat_map] in H. apply in_app_or in H. destruct H as [H|H].
    + apply in_app_or in H. destruct H as [H|H]; [now left|].
      right. exists g1. split; [right; now left | exact H].
    + destruct (IH H) as [Hs|[g' [Hg' Hc]]]; [now left|].
      right. exists g'. split; [|exact Hc].
      destruct Hg' as [E|Hg']; [now left | right; now right].
Qed.

Lemma In_join_seg (c : char) (g sep : str) (segs : list str) :
  In g segs -> In c g -> In c (join sep segs).
Proof.
  destruct segs as [|g0 segs]; [intros []|]. cbn [join].
  intros [->|Hg] Hc; apply in_or_app; [now left|]. right.
  induction segs as [|g1 segs IH]; [destruct Hg|].
  cbn [flat_map]. apply in_or_app. destruct Hg as [->|Hg].
  - left. apply in_or_app. now right.
  - right. now apply IH.
Qed.

Lemma In_replace (c : char) (t old new : str) :
  In c (replace t old new) -> In c t \/ In c new.
Proof.
  destruct (replace_segments t old new) as [segs [Ht [Hr _]]].
  rewrite Hr. intros H. apply In_join in H.
  destruct H as [H|[g [Hg Hc]]]; [now right|]. left. rewrite Ht.
  exact (In_join_seg c g old segs Hg Hc).
Qed.

Lemma verbatim_replace (t old new : str) :
  Docx.verbatim t = true -> Docx.verbatim new = true ->
  Docx.verbatim (replace t old new) = true.
Proof.
  unfold Docx.verbatim. rewrite !forallb_forall. intros Ht Hn c Hc.
  apply In_replace in Hc. destruct Hc; auto.
Qed.

Lemma general_text_loop_verbatim (needle replacement : str)
    (ps : list Paragraph) :
  Docx.verbatim replacement = true ->
  (forall q, In q ps -> Docx.verbatim (text q) = true) ->
  General.replace_text_in_paragraph_loop needle replacement ps
  = (map (replace_text_in_paragraph_body needle replacement) ps, false).
Proof.
  intros Hr. induction ps as [|p ps IH]; intros Hps; [reflexivity|].
  cbn [General.replace_text_in_paragraph_loop map].
  rewrite IH by (intros q Hq; apply Hps; now right).
  unfold replace_text_in_paragraph_body.
  destruct (contains needle (text p)); [|reflexivity].
  rewrite assign_verbatim; [reflexivity|].
  apply verbatim_replace; [apply Hps; now left | exact Hr].
Qed.

(** With texts and a replacement stored as given,
    [replace_text_in_paragraph] returns and does to each paragraph what
    its body says. *)
Lemma general_replace_text_in_paragraph_verbatim
    (needle replacement : str) (w : World) :
  Docx.verbatim replacement = true ->
  (forall q, In q (doc w) -> Docx.verbatim (text q) = true) ->
  General.replace_text_in_paragraph needle replacement w
  = ({| doc := map (replace_text_in_paragraph_body needle replacement) (doc w);
        trace := trace w |}, General.Returned).
Proof.
  intros Hr Hw. unfold General.replace_text_in_paragraph.
  now rewrite (general_text_loop_verbatim needle replacement (doc w) Hr Hw).
Qed.

End Verbatim.

(** C1, as stated, fails, in two ways.  With a replacement that holds a
    character XML does not have, the second paragraph contains the needle
    and the call neither returns nor raises the error of the needle: the
    assignment raises, and leaves the paragraph empty.  With a carriage
    return in the replacement the call returns, and the text of the
    paragraph is not the replacement: the carriage return reads back as a
    line feed. *)
Lemma replace_paragraph_contains_not_storable :
  occurs_in (lit "Sire:") (lit "Sire: y") /\
  General.replace_paragraph_contains (lit "Sire:") (lit "Sire: " ++ [0%N])
    {| doc := doc_of_texts [lit "Dam: x"; lit "Sire: y"]; trace := [] |}
  = ({| doc := [{| elem := 0; text := lit "Dam: x" |};
                {| elem := 1; text := [] |}];
        trace := [] |}, General.NotStorable) /\
  General.replace_paragraph_contains (lit "Sire:")
    (lit "Sire: a" ++ [13%N] ++ lit "b")
    {| doc := doc_of_texts [lit "Dam: x"; lit "Sire: y"]; trace := [] |}
  = ({| doc := [{| elem := 0; text := lit "Dam: x" |};
                {| elem := 1; text := lit "Sire: a" ++ [newline] ++ lit "b" |}];
        trace := [] |}, General.Returned) /\
  lit "Sire: a" ++ [newline] ++ lit "b" <> lit "Sire: a" ++ [13%N] ++ lit "b".
Proof.
  split; [apply contains_iff; reflexivity|].
  split; [reflexivity|]. split; [reflexivity | discriminate].
Qed.

(** C1, as amended.  With a replacement that the container stores as it
    is given, [replace_paragraph_contains] does exactly one of two things.
    (a) Some paragraph contains the needle: the text of the first such
    paragraph becomes the replacement, every other paragraph stays as it
    was, and the call returns.  (b) No paragraph contains the needle: the
    call raises the value error carrying the needle and the document is
    unchanged.  In (a) one paragraph is assigned to, in (b) none. *)
Theorem replace_paragraph_contains_first_or_raise
    (needle replacement : str) (w : World) :
  Docx.verbatim replacement = true ->
  let a :=
    exists pre p p' post w',
      doc w = pre ++ p :: post /\
      (forall q, In q pre -> ~ occurs_in needle (text q)) /\
      occurs_in needle (text p) /\
      General.replace_paragraph_contains needle replacement w
      = (w', General.Returned) /\
      doc w' = pre ++ p' :: post /\
      text p' = replacement /\
      elem p' = elem p /\
      trace w' = trace w in
  let b :=
    (forall q, In q (doc w) -> ~ occurs_in needle (text q)) /\
    General.replace_paragraph_contains needle replacement w
    = (w, General.NotFound needle) in
  (a \/ b) /\ ~ (a /\ b).
Proof.
  intros Hv. cbv zeta.
  rewrite (general_replace_paragraph_contains_verbatim needle replacement w Hv).
  destruct (replace_paragraph_contains_cases needle replacement w)
    as [[pre [p [post [Hd [Hpre [Hp Hrun]]]]]]|[Hno Hrun]]; rewrite Hrun.
  - split.
    + left. exists pre, p, (set_text p replacement), post.
      exists (with_doc w (pre ++ set_text p replacement :: post)).
      repeat split; assumption.
    + intros [_ [_ H]]. discriminate.
  - split.
    + right. split; [exact Hno | reflexivity].
    + intros [[pre [p [p' [post [w' [_ [_ [_ [H _]]]]]]]]] _]. discriminate.
Qed.

(** Three paragraphs, the second and the third with the needle. *)
Lemma replace_paragraph_contains_first_or_raise_witness :
  let needle := lit "Sire:" in
  let replacement := lit "Sire: {sireName}" in
  let w := {| doc := doc_of_texts [lit "Dam: Y"; lit "Sire: X"; lit "Sire: Z"];
              trace := [] |} in
  let a :=
    exists pre p p' post w',
      doc w = pre ++ p :: post /\
      (forall q, In q pre -> ~ occurs_in needle (text q)) /\
      occurs_in needle (text p) /\
      General.replace_paragraph_contains needle replacement w
      = (w', General.Returned) /\
      doc w' = pre ++ p' :: post /\
      text p' = replacement /\
      elem p' = elem p /\
      trace w' = trace w in
  let b :=
    (forall q, In q (doc w) -> ~ occurs_in needle (text q)) /\
    General.replace_paragraph_contains needle replacement w
    = (w, General.NotFound needle) in
  (a \/ b) /\ ~ (a /\ b).
Proof.
  apply (replace_paragraph_contains_first_or_raise
           (lit "Sire:") (lit "Sire: {sireName}")
           {| doc := doc_of_texts [lit "Dam: Y"; lit "Sire: X"; lit "Sire: Z"];
              trace := [] |}).
  reflexivity.
Defined.

(** C10, as stated, fails: with the empty needle the call raises when the
    container refuses the replacement, and the first paragraph is left
    empty; and with a carriage return in the replacement the first
    paragraph does not get the replacement but a line feed in its place. *)
Lemma replace_paragraph_contains_empty_needle_not_storable :
  General.replace_paragraph_contains [] (lit "a" ++ [0%N] ++ lit "b")
    {| doc := doc_of_texts [lit "first"; lit "second"]; trace := [] |}
  = ({| doc := [{| elem := 0; text := [] |};
                {| elem := 1; text := lit "second" |}];
        trace := [] |}, General.NotStorable) /\
  General.replace_paragraph_contains [] (lit "a" ++ [13%N] ++ lit "b")
    {| doc := doc_of_texts [lit "first"; lit "second"]; trace := [] |}
  = ({| doc := [{| elem := 0; text := lit "a" ++ [newline] ++ lit "b" |};
                {| elem := 1; text := lit "second" |}];
        trace := [] |}, General.Returned).
Proof. split; reflexivity. Qed.

(** C10, as amended.  With the empty needle and a replacement that the
    container stores as it is given, [replace_paragraph_contains] on a
    document that has a first paragraph does not raise: the text of the
    first paragraph becomes the replacement and the other paragraphs stay
    as they were. *)
Theorem replace_paragraph_contains_empty_needle
    (replacement : str) (p : Paragraph) (rest : list Paragraph)
    (t : list event) :
  Docx.verbatim replacement = true ->
  exists p',
    General.replace_paragraph_contains [] replacement
      {| doc := p :: rest; trace := t |}
    = ({| doc := p' :: rest; trace := t |}, General.Returned) /\
    text p' = replacement /\
    elem p' = elem p.
Proof.
  intros Hv. exists (set_text p replacement).
  rewrite (general_replace_paragraph_contains_verbatim _ _ _ Hv).
  unfold replace_paragraph_contains.
  cbn [doc replace_paragraph_contains_loop]. rewrite contains_nil.
  repeat split.
Qed.

Lemma replace_paragraph_contains_empty_needle_witness :
  exists p',
    General.replace_paragraph_contains [] (lit "Born on {puppyDOBLong}")
      {| doc := [{| elem := 0; text := lit "first" |};
                 {| elem := 1; text := lit "second" |}];
         trace := [] |}
    = ({| doc := [p'; {| elem := 1; text := lit "second" |}]; trace := [] |},
       General.Returned) /\
    text p' = lit "Born on {puppyDOBLong}" /\
    elem p' = elem {| elem := 0; text := lit "first" |}.
Proof.
  apply (replace_paragraph_contains_empty_needle
           (lit "Born on {puppyDOBLong}")
           {| elem := 0; text := lit "first" |}
           [{| elem := 1; text := lit "second" |}] []).
  reflexivity.
Defined.

(* ================================================================== *)
(** ** All occurrences, from the left *)

Section Leftmost.

Variable needle : str.
Hypothesis needle_not_empty : needle <> [].

Lemma needle_split : needle = removelast needle ++ [last needle 0%N].
Proof. now apply app_removelast_last. Qed.

Lemma removelast_shorter : ~ occurs_in needle (removelast needle).
Proof.
  intros H. apply occurs_in_length in H.
  rewrite needle_split, removelast_last, length_app in H. simpl in H. lia.
Qed.

(** An occurrence at the start of a text that holds the needle further on
    ends before that later occurrence does. *)
Lemma starts_in_front (l x : str) :
  l <> [] ->
  starts_with (l ++ needle ++ x) needle ->
  starts_with (l ++ removelast needle) needle.
Proof.
  intros Hl [y Hy]. rewrite needle_split in Hy at 1.
  rewrite <- app_assoc, app_assoc in Hy.
  apply app_eq_app in Hy. destruct Hy as [m [[H1 H2]|[H1 H2]]].
  - now exists m.
  - assert (Hm : m = []).
    { apply (f_equal (@length char)) in H1. rewrite !length_app in H1.
      rewrite needle_split, length_app in H1 at 1. simpl in H1.
      destruct l; [congruence|]. destruct m; [reflexivity|]. simpl in H1. lia. }
    subst m. rewrite app_nil_r in H1. exists []. now rewrite app_nil_r.
Qed.

Lemma leftmost_exists (t : str) :
  occurs_in needle t ->
  exists pre rest,
    t = pre ++ needle ++ rest /\
    ~ occurs_in needle (pre ++ removelast needle).
Proof.
  induction t as [|c t IH]; intros H.
  - apply occurs_in_length in H. destruct needle; [congruence | simpl in H; lia].
  - destruct (startswith (c :: t) needle) eqn:E.
    + apply startswith_iff in E. destruct E as [rest Hrest].
      exists [], rest. split; [exact Hrest | exact removelast_shorter].
    + apply contains_iff in H. cbn [contains] in H. rewrite E in H.
      cbn [orb] in H. apply contains_iff in H.
      destruct (IH H) as [pre [rest [Ht Hleft]]].
      exists (c :: pre), rest. split; [cbn [app]; now rewrite Ht|].
      intros Hocc. apply contains_iff in Hocc. cbn [app contains] in Hocc.
      apply orb_true_iff in Hocc. destruct Hocc as [Hs|Hc].
      * apply (startswith_extend _ ([last needle 0%N] ++ rest)) in Hs.
        rewrite <- app_comm_cons, <- !app_assoc in Hs.
        rewrite (app_assoc (removelast needle)), <- needle_split in Hs.
        rewrite <- Ht in Hs. congruence.
      * apply Hleft. now apply contains_iff.
Qed.

Lemma leftmost_unique (pre rest pre' rest' : str) :
  pre ++ needle ++ rest = pre' ++ needle ++ rest' ->
  ~ occurs_in needle (pre ++ removelast needle) ->
  ~ occurs_in needle (pre' ++ removelast needle) ->
  pre = pre' /\ rest = rest'.
Proof.
  intros H Hl Hl'.
  assert (Hpre : pre = pre').
  { apply app_eq_app in H. destruct H as [l [[H1 H2]|[H1 H2]]].
    - destruct l as [|c l]; [now rewrite app_nil_r in H1|]. exfalso.
      apply Hl. rewrite H1, <- app_assoc. apply occurs_in_app_r.
      destruct (starts_in_front (c :: l) rest) as [y Hy];
        [discriminate | now exists rest' |].
      rewrite Hy. apply occurs_in_app_l, occurs_in_refl.
    - destruct l as [|c l]; [now rewrite app_nil_r in H1|]. exfalso.
      apply Hl'. rewrite H1, <- app_assoc. apply occurs_in_app_r.
      destruct (starts_in_front (c :: l) rest') as [y Hy];
        [discriminate | now exists rest |].
      rewrite Hy. apply occurs_in_app_l, occurs_in_refl. }
  subst pre'. split; [reflexivity|].
  apply app_inv_head in H. now apply app_inv_head in H.
Qed.

Variable replacement : str.

Lemma replace_from_leftmost (pre rest : str) :
  ~ occurs_in needle (pre ++ removelast needle) ->
  replace_from needle replacement 0 (pre ++ needle ++ rest)
  = pre ++ replacement ++ replace_from needle replacement 0 rest.
Proof.
  induction pre as [|c pre IH]; intros Hleft.
  - rewrite !app_nil_l. now apply replace_from_match.
  - cbn [app]. rewrite replace_from_nomatch.
    + f_equal. apply IH. intros H. apply Hleft.
      now apply (occurs_in_app_r _ [c]).
    + destruct (startswith (c :: pre ++ needle ++ rest) needle) eqn:E;
        [|reflexivity].
      exfalso. apply Hleft. apply startswith_iff in E.
      destruct (starts_in_front (c :: pre) rest) as [y Hy];
        [discriminate | exact E |].
      rewrite Hy. apply occurs_in_app_l, occurs_in_refl.
Qed.

Lemma replace_from_replaced_all (t : str) :
  replaced_all needle replacement t (replace_from needle replacement 0 t).
Proof.
  remember (length t) as k eqn:Hk. revert t Hk.
  induction k as [k IH] using lt_wf_ind. intros t Hk.
  destruct (contains needle t) eqn:E.
  - apply contains_iff, leftmost_exists in E.
    destruct E as [pre [rest [-> Hleft]]].
    rewrite replace_from_leftmost by exact Hleft.
    apply replaced_next; [exact needle_not_empty | exact Hleft|].
    apply (IH (length rest)); [|reflexivity]. subst k.
    rewrite !length_app. destruct needle; [congruence | simpl; lia].
  - rewrite replace_from_absent by exact E.
    apply replaced_none. now apply contains_false_iff.
Qed.

(** The relation has one outcome. *)
Lemma replaced_all_unique_nonempty (t t1 t2 : str) :
  replaced_all needle replacement t t1 ->
  replaced_all needle replacement t t2 ->
  t1 = t2.
Proof.
  intros H1. revert t2.
  induction H1 as [t Hno|pre rest rest' _ Hleft H1 IH|t He]; intros t2 H2.
  - revert Hno. destruct H2 as [t _|pre' r0 r0' _ _ _|t He]; intros Hno.
    + reflexivity.
    + exfalso. apply Hno.
      apply occurs_in_app_r, occurs_in_app_l, occurs_in_refl.
    + congruence.
  - remember (pre ++ needle ++ rest) as t eqn:Et. revert Et.
    destruct H2 as [t Hno|pre' r0 r0' _ Hleft' H2|t He]; intros Et.
    + exfalso. apply Hno. rewrite Et.
      apply occurs_in_app_r, occurs_in_app_l, occurs_in_refl.
    + destruct (leftmost_unique _ _ _ _ Et Hleft' Hleft) as [-> ->].
      now rewrite (IH _ H2).
    + congruence.
  - congruence.
Qed.

End Leftmost.

Lemma replace_replaced_all (t needle replacement : str) :
  replaced_all needle replacement t (replace t needle replacement).
Proof.
  destruct needle as [|c n'].
  - now apply replaced_empty.
  - apply replace_from_replaced_all. discriminate.
Qed.

(** The text with all occurrences replaced is the one [str.replace]
    gives, and no other. *)
Lemma replaced_all_replace (t needle replacement t' : str) :
  replaced_all needle replacement t t' <-> t' = replace t needle replacement.
Proof.
  split; [|intros ->; apply replace_replaced_all].
  intros H. destruct needle as [|c n'].
  - inversion H as [t0 Hno|pre rest rest' Hne|t0 _]; subst.
    + destruct Hno. apply occurs_in_nil.
    + congruence.
    + reflexivity.
  - apply (replaced_all_unique_nonempty (c :: n')) with (t := t)
                                                       (replacement := replacement).
    + discriminate.
    + exact H.
    + apply replace_replaced_all.
Qed.

(** C2, as stated, fails, in two ways.  A carriage return in the
    replacement is stored as a line break, which reads back as a line
    feed: the line feed replaced by a carriage return is a line feed
    afterwards.  And a carriage return in the text around the needle does
    not stay either. *)
Lemma replace_text_in_paragraph_read_back :
  (occurs_in [newline] (lit "a" ++ [newline] ++ lit "b") /\
   General.replace_text_in_paragraph [newline] [13%N]
     {| doc := doc_of_texts [lit "a" ++ [newline] ++ lit "b"]; trace := [] |}
   = ({| doc := doc_of_texts [lit "a" ++ [newline] ++ lit "b"]; trace := [] |},
      General.Returned) /\
   ~ replaced_all [newline] [13%N]
       (lit "a" ++ [newline] ++ lit "b") (lit "a" ++ [newline] ++ lit "b"))
  /\
  General.replace_text_in_paragraph (lit "State") (lit "S")
    {| doc := doc_of_texts [lit "x" ++ [13%N] ++ lit "y State"]; trace := [] |}
  = ({| doc := doc_of_texts [lit "x" ++ [newline] ++ lit "y S"]; trace := [] |},
     General.Returned).
Proof.
  split; [split; [|split]|].
  - apply contains_iff. reflexivity.
  - reflexivity.
  - intros H. apply replaced_all_replace in H. discriminate.
  - reflexivity.
Qed.

(** C2, as amended.  When the container stores the replacement and the
    texts of the paragraphs as they are given, [replace_text_in_paragraph]
    returns without raising.  In every paragraph the text afterwards is
    the text before with all occurrences of the needle replaced and what
    is around them kept; a paragraph whose text does not contain the
    needle is the same afterwards; and when no paragraph contains the
    needle the document is the same afterwards. *)
Theorem replace_text_in_paragraph_all_occurrences
    (needle replacement : str) (w : World) :
  Docx.verbatim replacement = true ->
  (forall q, In q (doc w) -> Docx.verbatim (text q) = true) ->
  exists w',
    General.replace_text_in_paragraph needle replacement w
    = (w', General.Returned) /\
    trace w' = trace w /\
    Forall2 (fun p p' =>
               elem p' = elem p /\
               replaced_all needle replacement (text p) (text p') /\
               (~ occurs_in needle (text p) -> p' = p))
            (doc w) (doc w') /\
    ((forall q, In q (doc w) -> ~ occurs_in needle (text q)) ->
     doc w' = doc w).
Proof.
  intros Hr Hw.
  rewrite (general_replace_text_in_paragraph_verbatim needle replacement w Hr Hw).
  eexists. split; [reflexivity|]. cbn [doc trace].
  split; [reflexivity|]. clear Hw. split.
  - induction (doc w) as [|p ps IH]; constructor; [|exact IH].
    unfold replace_text_in_paragraph_body.
    destruct (contains needle (text p)) eqn:E.
    + cbn [set_text elem text]. split; [reflexivity|].
      split; [apply replace_replaced_all|].
      intros Hno. apply contains_false_iff in Hno. congruence.
    + split; [reflexivity|]. split; [|reflexivity].
      apply replaced_none. now apply contains_false_iff.
  - intros H. induction (doc w) as [|p ps IH]; [reflexivity|].
    cbn [map]. f_equal.
    + unfold replace_text_in_paragraph_body.
      now rewrite (proj2 (contains_false_iff _ _) (H p (or_introl eq_refl))).
    + apply IH. intros q Hq. apply H. now right.
Qed.

(** Two paragraphs with the boilerplate, one of them twice, and one
    without. *)
Lemma replace_text_in_paragraph_all_occurrences_witness :
  let needle := lit "State of ___" in
  let replacement := lit "State of {state}" in
  let w := {| doc := doc_of_texts
                       [lit "In the State of ___, and State of ___ again";
                        lit "County";
                        lit "State of ___"];
              trace := [] |} in
  exists w',
    General.replace_text_in_paragraph needle replacement w
    = (w', General.Returned) /\
    trace w' = trace w /\
    Forall2 (fun p p' =>
               elem p' = elem p /\
               replaced_all needle replacement (text p) (text p') /\
               (~ occurs_in needle (text p) -> p' = p))
            (doc w) (doc w') /\
    ((forall q, In q (doc w) -> ~ occurs_in needle (text q)) ->
     doc w' = doc w).
Proof.
  apply (replace_text_in_paragraph_all_occurrences
           (lit "State of ___") (lit "State of {state}")
           {| doc := doc_of_texts
                       [lit "In the State of ___, and State of ___ again";
                        lit "County";
                        lit "State of ___"];
              trace := [] |}).
  - reflexivity.
  - intros q Hq. destruct Hq as [<-|[<-|[<-|[]]]]; reflexivity.
Defined.

(* ================================================================== *)
(** ** The normalization scan *)

Section FindFacts.

Variable c : char.

Lemma find_char (pre rest : str) :
  ~ In c pre -> find (pre ++ c :: rest) [c] = Z.of_nat (length pre).
Proof.
  induction pre as [|d pre IH]; intros Hnot.
  - cbn [app find startswith]. now rewrite N.eqb_refl, startswith_nil.
  - assert (Hd : (c =? d)%N = false).
    { apply N.eqb_neq. intros ->. apply Hnot. now left. }
    cbn [app find startswith]. rewrite Hd. cbn [andb].
    rewrite IH by (intros H; apply Hnot; now right).
    destruct (Z.ltb_spec (Z.of_nat (length pre)) 0); [lia|].
    cbn [length]. lia.
Qed.

Lemma first_occurrence (s : str) :
  In c s -> exists pre rest, s = pre ++ c :: rest /\ ~ In c pre.
Proof.
  induction s as [|d s IH]; intros H; [destruct H|].
  destruct (N.eq_dec d c) as [->|Hne].
  - exists [], s. split; [reflexivity | intros []].
  - destruct H as [H|H]; [contradiction|].
    destruct (IH H) as [pre [rest [-> Hpre]]].
    exists (d :: pre), rest. split; [reflexivity|].
    intros [E|E]; [contradiction | now apply Hpre].
Qed.

Lemma occurs_in_char (s : str) : occurs_in [c] s <-> In c s.
Proof.
  split.
  - intros [a [b ->]]. apply in_or_app. right. now left.
  - intros H. apply in_split in H. destruct H as [a [b ->]]. now exists a, b.
Qed.

Lemma slice_from_nat (s : str) (k : nat) :
  slice_from s (Z.of_nat k) = skipn k s.
Proof.
  unfold slice_from. destruct (Z.ltb_spec (Z.of_nat k) 0); [lia|].
  now rewrite Nat2Z.id.
Qed.

(** [s[s.find(c):]] is the text from the first [c] on. *)
Lemma slice_from_find (pre rest : str) :
  ~ In c pre ->
  slice_from (pre ++ c :: rest) (find (pre ++ c :: rest) [c]) = c :: rest.
Proof.
  intros H. rewrite find_char by assumption. rewrite slice_from_nat.
  now rewrite skipn_app, skipn_all, Nat.sub_diag.
Qed.

End FindFacts.

Lemma state_of_not_county (s : str) :
  starts_with s (lit "STATE OF") -> startswith s (lit "COUNTY") = false.
Proof. intros [r ->]. reflexivity. Qed.

Lemma county_not_state_of (s : str) :
  starts_with s (lit "COUNTY") -> startswith s (lit "STATE OF") = false.
Proof. intros [r ->]. reflexivity. Qed.

(** The "STATE OF" branch of the scan, at the first closing parenthesis of
    the normalized trimmed text. *)
Lemma normalize_body_state_of (p : Paragraph) (pre rest : str) :
  starts_with (normalized_trimmed (text p)) (lit "STATE OF") ->
  normalized_trimmed (text p) = pre ++ rparen :: rest ->
  ~ In rparen pre ->
  normalize_body p = set_text p (lit "STATE OF {state} " ++ rparen :: rest) /\
  exists gap, pre = lit "STATE OF" ++ gap.
Proof.
  intros Hst Heq Hpre. split.
  - unfold normalize_body. fold (normalized (text p)).
    fold (normalized_trimmed (text p)).
    rewrite (state_of_not_county _ Hst).
    rewrite (proj2 (startswith_iff _ _) Hst). cbn [andb].
    assert (Hc : contains [rparen] (normalized_trimmed (text p)) = true).
    { apply contains_iff. rewrite Heq. now exists pre, rest. }
    rewrite Hc. rewrite Heq. now rewrite slice_from_find.
  - destruct Hst as [r Hr]. rewrite Hr in Heq.
    apply app_eq_app in Heq. destruct Heq as [l [[H1 H2]|[H1 H2]]].
    + destruct l as [|x l].
      * exists []. rewrite app_nil_r in H1. now rewrite app_nil_r.
      * injection H2 as <- _. exfalso.
        assert (Hin : In rparen (lit "STATE OF")).
        { rewrite H1. apply in_or_app. right. now left. }
        vm_compute in Hin. intuition discriminate.
    + now exists l.
Qed.

(** The "COUNTY" branch of the scan. *)
Lemma normalize_body_county (p : Paragraph) :
  starts_with (normalized_trimmed (text p)) (lit "COUNTY") ->
  occurs_in (lit ")SS") (normalized_trimmed (text p)) ->
  normalize_body p = set_text p (lit "COUNTY OF {county} )SS.:").
Proof.
  intros Hst Hocc. unfold normalize_body. fold (normalized (text p)).
  fold (normalized_trimmed (text p)).
  rewrite (county_not_state_of _ Hst).
  rewrite (proj2 (startswith_iff _ _) Hst).
  now rewrite (proj2 (contains_iff _ _) Hocc).
Qed.

(** The scan visits every paragraph where it stands. *)
Lemma normalization_scan_nth (w : World) (i : nat) (p : Paragraph) :
  nth_error (doc w) i = Some p ->
  normalization_scan w = (with_doc w (map normalize_body (doc w)), Ok tt) /\
  nth_error (doc (fst (normalization_scan w))) i = Some (normalize_body p).
Proof.
  intros H. split; [reflexivity|].
  cbn [normalization_scan fst with_doc doc]. now apply map_nth_error.
Qed.





(** C5, as amended.  A paragraph whose normalized trimmed text starts with
    "COUNTY" and contains ")SS" is rewritten by the scan to exactly
    "COUNTY OF {county} )SS.:", whatever else it held. *)
Theorem scan_county (w : World) (i : nat) (p : Paragraph) :
  nth_error (doc w) i = Some p ->
  starts_with (normalized_trimmed (text p)) (lit "COUNTY") ->
  occurs_in (lit ")SS") (normalized_trimmed (text p)) ->
  exists p',
    nth_error (doc (fst (normalization_scan w))) i = Some p' /\
    text p' = lit "COUNTY OF {county} )SS.:" /\
    elem p' = elem p.
Proof.
  intros Hi Hst Hocc. exists (normalize_body p).
  split; [now apply normalization_scan_nth|].
  now rewrite (normalize_body_county p Hst Hocc).
Qed.

(** A paragraph of a notary block, with text after the marker. *)
Lemma scan_county_witness :
  exists p',
    nth_error
      (doc (fst (normalization_scan
                   {| doc := doc_of_texts
                               [lit "Notary";
                                [nbsp] ++ lit "COUNTY OF KINGS )SS.: x "];
                      trace := [] |}))) 1
    = Some p' /\
    text p' = lit "COUNTY OF {county} )SS.:" /\
    elem p' = 1.
Proof.
  apply (scan_county
           {| doc := doc_of_texts
                       [lit "Notary"; [nbsp] ++ lit "COUNTY OF KINGS )SS.: x "];
              trace := [] |} 1
           {| elem := 1; text := [nbsp] ++ lit "COUNTY OF KINGS )SS.: x " |}).
  - reflexivity.
  - apply startswith_iff. reflexivity.
  - apply contains_iff. reflexivity.
Defined.

(** C5, as stated, fails: this paragraph contains "COUNTY" and ")SS", and
    the scan leaves it as it is. *)
Lemma scan_county_inside :
  occurs_in (lit "COUNTY") (normalized_trimmed (text county_inside)) /\
  occurs_in (lit ")SS") (normalized_trimmed (text county_inside)) /\
  nth_error
    (doc (fst (normalization_scan {| doc := [county_inside]; trace := [] |})))
    0
  = Some county_inside /\
  text county_inside <> lit "COUNTY OF {county} )SS.:".
Proof.
  split; [|split; [|split]].
  - apply contains_iff. reflexivity.
  - apply contains_iff. reflexivity.
  - reflexivity.
  - discriminate.
Qed.

(* ================================================================== *)
(** ** Runs of [main] *)

Section Runs.

Lemma exec_all_app (pre post : list call) (w : World) :
  exec_all (pre ++ post) w =
  match exec_all pre w with
  | (w1, Ok _) => exec_all post w1
  | (w1, Raise e) => (w1, Raise e)
  end.
Proof.
  revert w. induction pre as [|c pre IH]; intros w; [reflexivity|].
  cbn [app exec_all]. unfold bind.
  destruct (exec c w) as [w1 [[]|e]]; [apply IH | reflexivity].
Qed.

Lemma exec_trace (c : call) (w w' : World) (r : result unit) :
  exec c w = (w', r) -> trace w' = trace w.
Proof.
  destruct c as [n t|n t]; cbn [exec].
  - unfold replace_paragraph_contains, raise.
    destruct (replace_paragraph_contains_loop n t (doc w));
      intros H; injection H as <- _; reflexivity.
  - unfold replace_text_in_paragraph. intros H. injection H as <- _. reflexivity.
Qed.

Lemma exec_all_trace (cs : list call) (w w' : World) (r : result unit) :
  exec_all cs w = (w', r) -> trace w' = trace w.
Proof.
  revert w. induction cs as [|c cs IH]; intros w; cbn [exec_all].
  - unfold ret. intros H. now injection H as <- _.
  - unfold bind. destruct (exec c w) as [w1 [[]|e]] eqn:E; intros H.
    + rewrite (IH _ H). exact (exec_trace _ _ _ _ E).
    + injection H as <- _. exact (exec_trace _ _ _ _ E).
Qed.

Lemma TextInParagraph_returns (n t : str) (w : World) :
  exists w', exec (TextInParagraph n t) w = (w', Ok tt).
Proof. eexists. reflexivity. Qed.

(** An exception of the rewrite calls is the value error of the first
    [replace_paragraph_contains] call whose needle no paragraph contains
    when the call is made. *)
Lemma exec_all_raises (cs : list call) (w w' : World) (e : exn) :
  exec_all cs w = (w', Raise e) ->
  exists pre needle replacement post,
    cs = pre ++ ParagraphContains needle replacement :: post /\
    exec_all pre w = (w', Ok tt) /\
    (forall q, In q (doc w') -> ~ occurs_in needle (text q)) /\
    e = ValueError needle.
Proof.
  revert w. induction cs as [|c cs IH]; intros w; cbn [exec_all].
  - discriminate.
  - unfold bind. destruct (exec c w) as [w1 [[]|e1]] eqn:E; intros H.
    + destruct (IH _ H) as [pre [n [t [post [-> [Hpre [Hno ->]]]]]]].
      exists (c :: pre), n, t, post. repeat split; auto.
      cbn [exec_all]. unfold bind. now rewrite E.
    + injection H as <- <-. destruct c as [n t|n t].
      * cbn [exec] in E.
        destruct (replace_paragraph_contains_cases n t w)
          as [[p1 [p [p2 [_ [_ [_ Hr]]]]]]|[Hno Hr]];
          rewrite Hr in E; [discriminate|].
        injection E as <- <-.
        exists [], n, t, cs. repeat split; auto.
      * destruct (TextInParagraph_returns n t w) as [w2 H2]. congruence.
Qed.

Lemma exec_all_stops (pre post : list call) (needle replacement : str)
    (w w1 : World) :
  exec_all pre w = (w1, Ok tt) ->
  (forall q, In q (doc w1) -> ~ occurs_in needle (text q)) ->
  exec_all (pre ++ ParagraphContains needle replacement :: post) w
  = (w1, Raise (ValueError needle)).
Proof.
  intros Hpre Hno. rewrite exec_all_app, Hpre. cbn [exec_all exec].
  unfold bind.
  destruct (replace_paragraph_contains_cases needle replacement w1)
    as [[p1 [p [p2 [Hd [_ [Hp _]]]]]]|[_ ->]]; [|reflexivity].
  exfalso. apply (Hno p); [|exact Hp]. rewrite Hd. apply in_or_app. right. now left.
Qed.

Lemma run_unfold (d : Document) :
  run d =
  match exec_all rewrite_calls {| doc := d; trace := [] |} with
  | (w1, Ok _) =>
      ({| doc := map normalize_body (doc w1);
          trace := trace w1 ++
                   [Saved TARGET_PATH (map normalize_body (doc w1))] ++
                   [Printed (lit "Wrote updated template to " ++ TARGET_PATH)] |},
       Ok tt)
  | (w1, Raise e) => (w1, Raise e)
  end.
Proof.
  unfold run, main, bind.
  destruct (exec_all rewrite_calls {| doc := d; trace := [] |}) as [w1 [[]|e]];
    [|reflexivity].
  cbv [normalization_scan save print emit with_doc doc trace].
  now rewrite <- app_assoc.
Qed.

(** The two ways a run can go: the rewrite calls all return, the scan runs
    and the document is saved once and reported; or a rewrite call raises
    and the run stops there with nothing saved. *)
Lemma run_cases (d : Document) :
  (exists w1,
      exec_all rewrite_calls {| doc := d; trace := [] |} = (w1, Ok tt) /\
      run d =
      ({| doc := map normalize_body (doc w1);
          trace := [Saved TARGET_PATH (map normalize_body (doc w1));
                    Printed (lit "Wrote updated template to " ++ TARGET_PATH)] |},
       Ok tt))
  \/
  (exists w1 e,
      exec_all rewrite_calls {| doc := d; trace := [] |} = (w1, Raise e) /\
      run d = (w1, Raise e) /\ trace w1 = []).
Proof.
  rewrite run_unfold.
  destruct (exec_all rewrite_calls {| doc := d; trace := [] |})
    as [w1 [[]|e]] eqn:E; apply exec_all_trace in E; cbn [trace] in E.
  - left. exists w1. split; [reflexivity|]. now rewrite E.
  - right. exists w1, e. auto.
Qed.

End Runs.

(** C4.  If, when a [replace_paragraph_contains] call of [main] is reached,
    no paragraph contains its needle, the run raises the value error of
    that needle and nothing has been saved.  And every run goes one of two
    ways: all rewrite calls and the scan are applied and the document is
    saved exactly once, to the target path; or the run raises a value error
    and has saved nothing. *)
Theorem run_saves_once_or_never (d : Document) :
  (forall pre needle replacement post w1,
      rewrite_calls = pre ++ ParagraphContains needle replacement :: post ->
      exec_all pre {| doc := d; trace := [] |} = (w1, Ok tt) ->
      (forall q, In q (doc w1) -> ~ occurs_in needle (text q)) ->
      run d = (w1, Raise (ValueError needle)) /\ saves (trace w1) = [])
  /\
  ((exists w1 w',
       exec_all rewrite_calls {| doc := d; trace := [] |} = (w1, Ok tt) /\
       run d = (w', Ok tt) /\
       doc w' = map normalize_body (doc w1) /\
       saves (trace w') = [doc w'] /\
       In (Saved TARGET_PATH (doc w')) (trace w'))
   \/
   (exists w' needle,
       run d = (w', Raise (ValueError needle)) /\ saves (trace w') = [])).
Proof.
  split.
  - intros pre needle replacement post w1 Hcalls Hpre Hno.
    pose proof (exec_all_stops pre post needle replacement _ _ Hpre Hno) as H.
    rewrite <- Hcalls in H.
    destruct (run_cases d) as [[w2 [H2 _]]|[w2 [e [H2 [Hrun Ht]]]]];
      rewrite H in H2; [discriminate|].
    injection H2 as <- <-. rewrite Ht. split; [exact Hrun | reflexivity].
  - destruct (run_cases d) as [[w1 [H1 Hrun]]|[w1 [e [_ [Hrun Ht]]]]].
    + left. exists w1. eexists. split; [exact H1|]. split; [exact Hrun|].
      cbn [doc trace saves]. repeat split. now left.
    + right. destruct e as [needle]. exists w1, needle.
      split; [exact Hrun | now rewrite Ht].
Qed.

(** A document with the agreement line and no consideration clause: the
    first call of [main] returns, the second finds nothing. *)
Lemma run_saves_once_or_never_witness :
  run (doc_of_texts [lit "This Agreement dated 2024"; lit "Sire: Rex"])
  = (fst (exec_all (firstn 1 rewrite_calls)
            {| doc := doc_of_texts
                        [lit "This Agreement dated 2024"; lit "Sire: Rex"];
               trace := [] |}),
     Raise (ValueError (lit "In Consideration of the total sum")))
  /\ saves (trace (fst (exec_all (firstn 1 rewrite_calls)
                          {| doc := doc_of_texts
                                      [lit "This Agreement dated 2024";
                                       lit "Sire: Rex"];
                             trace := [] |}))) = [].
Proof.
  apply (proj1 (run_saves_once_or_never
                  (doc_of_texts [lit "This Agreement dated 2024"; lit "Sire: Rex"]))
           (firstn 1 rewrite_calls)
           (lit "In Consideration of the total sum")
           (match skipn 1 rewrite_calls with
            | ParagraphContains _ r :: _ => r
            | _ => []
            end)
           (skipn 2 rewrite_calls)).
  - reflexivity.
  - vm_compute. reflexivity.
  - intros q Hq. apply contains_false_iff.
    vm_compute in Hq. destruct Hq as [<-|[<-|[]]]; vm_compute; reflexivity.
Defined.

Section ParagraphsKept.

Lemma keeps_bind (m k : M unit) :
  keeps_paragraphs m -> keeps_paragraphs k -> keeps_paragraphs (m ;; k).
Proof.
  intros Hm Hk w. unfold bind. specialize (Hm w).
  destruct (m w) as [w1 [[]|e]]; cbn [fst] in *; [|exact Hm].
  now rewrite Hk.
Qed.

Lemma keeps_replace_paragraph_contains (needle replacement : str) :
  keeps_paragraphs (replace_paragraph_contains needle replacement).
Proof.
  intros w.
  destruct (replace_paragraph_contains_cases needle replacement w)
    as [[pre [p [post [Hd [_ [_ ->]]]]]]|[_ ->]]; [|reflexivity].
  cbn [fst with_doc doc]. rewrite Hd, !map_app. reflexivity.
Qed.

Lemma keeps_map_body (f : Paragraph -> Paragraph) :
  (forall p, elem (f p) = elem p) ->
  keeps_paragraphs (fun w => (with_doc w (map f (doc w)), Ok tt)).
Proof.
  intros Hf w. cbn [fst with_doc doc]. rewrite map_map.
  apply map_ext. exact Hf.
Qed.

Lemma elem_normalize_body (p : Paragraph) : elem (normalize_body p) = elem p.
Proof.
  unfold normalize_body.
  repeat match goal with |- context [if ?b then _ else _] => destruct b end;
    reflexivity.
Qed.

Lemma keeps_exec (c : call) : keeps_paragraphs (exec c).
Proof.
  destruct c as [n t|n t]; cbn [exec].
  - apply keeps_replace_paragraph_contains.
  - apply keeps_map_body. intros p.
    apply (replace_text_in_paragraph_body_spec n t p).
Qed.

Lemma keeps_exec_all (cs : list call) : keeps_paragraphs (exec_all cs).
Proof.
  induction cs as [|c cs IH]; cbn [exec_all].
  - intros w. reflexivity.
  - apply keeps_bind; [apply keeps_exec | exact IH].
Qed.

Lemma keeps_main : keeps_paragraphs main.
Proof.
  unfold main.
  apply keeps_bind; [apply keeps_exec_all|].
  apply keeps_bind; [apply keeps_map_body, elem_normalize_body|].
  apply keeps_bind; intros w; reflexivity.
Qed.

End ParagraphsKept.

(** C3.  A run of [main] keeps the paragraphs of the loaded document: the
    same elements in the same order, hence as many, in the document it ends
    with (whether it returns or raises) and in every document it saves.
    Only texts change. *)
Theorem run_keeps_paragraphs (d : Document) :
  map elem (doc (fst (run d))) = map elem d /\
  length (doc (fst (run d))) = length d /\
  Forall (fun d' => map elem d' = map elem d /\ length d' = length d)
         (saves (trace (fst (run d)))).
Proof.
  assert (H : map elem (doc (fst (run d))) = map elem d)
    by apply (keeps_main {| doc := d; trace := [] |}).
  assert (Hlen : forall d', map elem d' = map elem d -> length d' = length d).
  { intros d' E. rewrite <- (length_map elem d'), E. apply length_map. }
  split; [exact H|]. split; [now apply Hlen|].
  destruct (run_cases d) as [[w1 [_ Hrun]]|[w1 [e [_ [Hrun Ht]]]]];
    rewrite Hrun in *; cbn [fst doc trace saves] in *.
  - constructor; [|constructor]. split; [exact H | now apply Hlen].
  - rewrite Ht. constructor.
Qed.

(* ================================================================== *)
(** ** Where a needle can come from *)

Section Occurrences.

Variable needle : str.

(** An occurrence of the needle cannot run across a character the needle
    does not have. *)
Lemma occurs_split_char (a b : str) (c : char) :
  ~ In c needle ->
  occurs_in needle (a ++ c :: b) ->
  occurs_in needle a \/ occurs_in needle b.
Proof.
  intros Hc [x [y H]].
  apply app_eq_app in H. destruct H as [l [[H1 H2]|[H1 H2]]].
  - apply app_eq_app in H2.
    destruct H2 as [m [[H3 H4]|[H3 H4]]].
    + destruct m as [|c' m].
      * left. exists x, []. rewrite H1, H3. now rewrite !app_nil_r.
      * injection H4 as <- _. exfalso. apply Hc. rewrite H3.
        apply in_or_app. right. now left.
    + left. exists x, m. now rewrite H1, H3.
  - destruct l as [|c' l].
    + destruct needle as [|n0 needle'] eqn:E.
      * left. apply occurs_in_nil.
      * injection H2 as -> _. exfalso. apply Hc. now left.
    + injection H2 as _ ->. right. now exists l, y.
Qed.

(** Nor can it touch an inserted text that it does not occur in and whose
    first and last characters it does not have. *)
Lemma occurs_around (g x : str) (h : char) (r' : str) :
  ~ In h needle ->
  ~ In (last (h :: r') h) needle ->
  ~ occurs_in needle (h :: r') ->
  occurs_in needle (g ++ (h :: r') ++ x) ->
  occurs_in needle g \/ occurs_in needle x.
Proof.
  intros Hh Hz Hr H.
  assert (Hsplit : h :: r' = removelast (h :: r') ++ [last (h :: r') h])
    by (apply app_removelast_last; discriminate).
  rewrite Hsplit in H. rewrite <- app_assoc in H. cbn [app] in H.
  rewrite app_assoc in H. apply occurs_split_char in H; [|exact Hz].
  destruct H as [H|H]; [|now right]. left.
  destruct r' as [|c r'].
  - cbn [removelast] in H. now rewrite app_nil_r in H.
  - change (removelast (h :: c :: r')) with (h :: removelast (c :: r')) in H.
    apply occurs_split_char in H; [|exact Hh].
    destruct H as [H|H]; [exact H|]. exfalso. apply Hr.
    rewrite Hsplit.
    change (removelast (h :: c :: r')) with (h :: removelast (c :: r')).
    apply (occurs_in_app_r _ [h]), occurs_in_app_l, H.
Qed.

Lemma occurs_join (h : char) (r' : str) (segs : list str) :
  ~ In h needle ->
  ~ In (last (h :: r') h) needle ->
  ~ occurs_in needle (h :: r') ->
  occurs_in needle (join (h :: r') segs) ->
  exists g, In g segs /\ occurs_in needle g.
Proof.
  intros Hh Hz Hr.
  destruct segs as [|g segs].
  - intros H. exfalso. apply Hr. apply (occurs_in_trans _ []); [exact H|].
    apply occurs_in_nil.
  - revert g. induction segs as [|g1 segs IH]; intros g H.
    + cbn [join flat_map] in H. rewrite app_nil_r in H. exists g. split; [now left|exact H].
    + cbn [join flat_map] in H. rewrite <- app_assoc in H.
      apply occurs_around in H; try assumption.
      destruct H as [H|H].
      * exists g. split; [now left | exact H].
      * destruct (IH g1 H) as [g' [Hin Hocc]]. exists g'. split; [now right | exact Hocc].
Qed.

End Occurrences.

Lemma occurs_in_join_seg (g sep : str) (segs : list str) :
  In g segs -> occurs_in g (join sep segs).
Proof.
  destruct segs as [|g0 segs]; [intros []|].
  intros [->|Hin].
  - apply occurs_in_app_l, occurs_in_refl.
  - cbn [join]. apply occurs_in_app_r.
    induction segs as [|g1 segs IH]; [destruct Hin|].
    cbn [flat_map]. destruct Hin as [->|Hin].
    + apply occurs_in_app_l, occurs_in_app_r, occurs_in_refl.
    + apply occurs_in_app_r, IH, Hin.
Qed.

Lemma map_join (f : char -> char) (sep : str) (segs : list str) :
  map f (join sep segs) = join (map f sep) (map (map f) segs).
Proof.
  destruct segs as [|g segs]; [reflexivity|].
  cbn [join map]. rewrite map_app. f_equal.
  induction segs as [|g1 segs IH]; [reflexivity|].
  cbn [flat_map map]. rewrite !map_app. now rewrite IH.
Qed.

Lemma occurs_in_map (f : char -> char) (a s : str) :
  occurs_in a s -> occurs_in (map f a) (map f s).
Proof.
  intros [x [y ->]]. exists (map f x), (map f y). now rewrite !map_app.
Qed.

(** *** Non-breaking spaces *)

Lemma normalized_map (t : str) : normalized t = map unbreak t.
Proof. apply replace_char. Qed.

Lemma normalized_idem (t : str) : normalized (normalized t) = normalized t.
Proof.
  rewrite !normalized_map, map_map. apply map_ext. intros c. unfold unbreak.
  destruct (nbsp =? c)%N eqn:E; [reflexivity | now rewrite E].
Qed.

Lemma mem_false (c : char) (s : str) : Rerun.mem c s = false <-> ~ In c s.
Proof.
  unfold Rerun.mem. induction s as [|d s IH]; cbn [existsb].
  - split; [intros _ [] | reflexivity].
  - rewrite orb_false_iff, IH, N.eqb_neq. split.
    + intros [H1 H2] [E|E]; [now subst | contradiction].
    + intros H. split; [intros ->; apply H; now left | intros E; apply H; now right].
Qed.

Lemma normalized_fixed (t : str) : ~ In nbsp t -> normalized t = t.
Proof.
  rewrite normalized_map. induction t as [|c t IH]; intros H; [reflexivity|].
  cbn [map]. rewrite IH by (intros E; apply H; now right). f_equal.
  unfold unbreak. destruct (N.eqb_spec nbsp c) as [E|E]; [|reflexivity].
  exfalso. apply H. now left.
Qed.

Lemma occurs_in_normalized (a s : str) :
  occurs_in a s -> occurs_in (normalized a) (normalized s).
Proof. rewrite !normalized_map. apply occurs_in_map. Qed.

(** *** Trimming keeps a piece of the text *)

Lemma lstrip_suffix (s : str) : exists a, s = a ++ lstrip s.
Proof.
  induction s as [|c s [a IH]]; [now exists []|].
  cbn [lstrip]. destruct (isspace c).
  - exists (c :: a). cbn [app]. now f_equal.
  - now exists [].
Qed.

Lemma rstrip_prefix (s : str) : exists b, s = rstrip s ++ b.
Proof.
  unfold rstrip. destruct (lstrip_suffix (rev s)) as [a H].
  exists (rev a). rewrite <- rev_app_distr, <- H. now rewrite rev_involutive.
Qed.

Lemma strip_occurs (s : str) : occurs_in (strip s) s.
Proof.
  unfold strip. destruct (lstrip_suffix s) as [a Ha].
  destruct (rstrip_prefix (lstrip s)) as [b Hb].
  exists a, b. now rewrite <- Hb.
Qed.

(* ================================================================== *)
(** ** Running [main] on its own output *)

Section RerunFacts.

Import Rerun.

Variable needle : str.
Hypothesis needle_no_nbsp : ~ In nbsp needle.

Lemma occurs_text_normalized (t : str) :
  occurs_in needle t -> occurs_in needle (normalized t).
Proof.
  intros H. apply occurs_in_normalized in H.
  now rewrite (normalized_fixed needle needle_no_nbsp) in H.
Qed.

Lemma norm_count_app (a b : Document) :
  norm_count needle (a ++ b) = norm_count needle a + norm_count needle b.
Proof. unfold norm_count. now rewrite filter_app, length_app. Qed.

Lemma norm_count_cons (p : Paragraph) (d : Document) :
  norm_count needle (p :: d)
  = (if contains needle (normalized (text p)) then 1 else 0)
    + norm_count needle d.
Proof.
  unfold norm_count. cbn [filter].
  now destruct (contains needle (normalized (text p))).
Qed.

Lemma norm_count_map_le (f : Paragraph -> Paragraph) (d : Document) :
  (forall p, occurs_in needle (normalized (text (f p))) ->
             occurs_in needle (normalized (text p))) ->
  norm_count needle (map f d) <= norm_count needle d.
Proof.
  intros Hf. induction d as [|p d IH]; [reflexivity|].
  cbn [map]. rewrite !norm_count_cons.
  destruct (contains needle (normalized (text (f p)))) eqn:E1.
  - apply contains_iff, Hf, contains_iff in E1. rewrite E1. lia.
  - destruct (contains needle (normalized (text p))); lia.
Qed.

Lemma norm_count_zero (d : Document) :
  norm_count needle d = 0 ->
  forall q, In q d -> ~ occurs_in needle (text q).
Proof.
  induction d as [|p d IH]; intros H q Hq; [destruct Hq|].
  rewrite norm_count_cons in H.
  destruct (contains needle (normalized (text p))) eqn:E; [discriminate|].
  destruct Hq as [<-|Hq].
  - intros Hocc. apply occurs_text_normalized, contains_iff in Hocc. congruence.
  - now apply IH.
Qed.

(** A whole-paragraph replacement by a text without the needle. *)
Lemma whole_count (n r : str) (w w' : World) :
  contains needle (normalized r) = false ->
  replace_paragraph_contains n r w = (w', Ok tt) ->
  norm_count needle (doc w') <= norm_count needle (doc w) /\
  (n = needle -> norm_count needle (doc w') < norm_count needle (doc w)).
Proof.
  intros Hr H.
  destruct (replace_paragraph_contains_cases n r w)
    as [[pre [p [post [Hd [_ [Hp Hrun]]]]]]|[_ Hrun]];
    rewrite Hrun in H; [|discriminate].
  injection H as <-. cbn [with_doc doc]. rewrite Hd.
  rewrite !norm_count_app, !norm_count_cons. cbn [set_text text]. rewrite Hr.
  split.
  - destruct (contains needle (normalized (text p))); lia.
  - intros ->. apply occurs_text_normalized, contains_iff in Hp. rewrite Hp. lia.
Qed.

(** A substring replacement by a text the needle cannot touch. *)
Lemma substring_keeps (n r : str) (p : Paragraph) :
  call_cannot_create needle (TextInParagraph n r) = true ->
  occurs_in needle
    (normalized (text (replace_text_in_paragraph_body n r p))) ->
  occurs_in needle (normalized (text p)).
Proof.
  cbn [call_cannot_create]. destruct r as [|h r']; [discriminate|].
  rewrite !andb_true_iff, !negb_true_iff.
  intros [[[Hh Hz] Hr] Hnb].
  apply mem_false in Hh, Hz, Hnb. apply contains_false_iff in Hr.
  destruct (replace_text_in_paragraph_body_spec n (h :: r') p)
    as [_ [[_ ->]|[_ [segs [Hp [Hp' _]]]]]]; [trivial|].
  rewrite Hp', Hp, !normalized_map, !map_join.
  rewrite <- (normalized_map (h :: r')), (normalized_fixed _ Hnb).
  intros H. apply occurs_join in H; try assumption.
  destruct H as [g [Hin Hocc]].
  apply (occurs_in_trans _ g); [exact Hocc|]. now apply occurs_in_join_seg.
Qed.

Lemma exec_count_le (c : call) (w w' : World) :
  call_cannot_create needle c = true ->
  exec c w = (w', Ok tt) ->
  norm_count needle (doc w') <= norm_count needle (doc w).
Proof.
  destruct c as [n r|n r]; intros Hc H.
  - cbn [call_cannot_create] in Hc. apply negb_true_iff in Hc.
    exact (proj1 (whole_count n r w w' Hc H)).
  - cbn [exec] in H. unfold replace_text_in_paragraph in H.
    injection H as <-. cbn [with_doc doc].
    apply norm_count_map_le. intros p. now apply substring_keeps.
Qed.

Lemma exec_all_count_le (cs : list call) (w w' : World) :
  forallb (call_cannot_create needle) cs = true ->
  exec_all cs w = (w', Ok tt) ->
  norm_count needle (doc w') <= norm_count needle (doc w).
Proof.
  revert w. induction cs as [|c cs IH]; intros w Hcs H.
  - cbn in H. now injection H as <-.
  - cbn [forallb] in Hcs. apply andb_true_iff in Hcs. destruct Hcs as [Hc Hcs].
    cbn [exec_all] in H. unfold bind in H.
    destruct (exec c w) as [w1 [[]|e]] eqn:E; [|discriminate].
    pose proof (exec_count_le c w w1 Hc E). pose proof (IH w1 Hcs H). lia.
Qed.

(** Once the call that looks for the needle has returned, one paragraph
    fewer holds the needle. *)
Lemma exec_all_count_lt (cs : list call) (r : str) (w w' : World) :
  forallb (call_cannot_create needle) cs = true ->
  In (ParagraphContains needle r) cs ->
  exec_all cs w = (w', Ok tt) ->
  norm_count needle (doc w') < norm_count needle (doc w).
Proof.
  revert w. induction cs as [|c cs IH]; intros w Hcs Hin H; [destruct Hin|].
  cbn [forallb] in Hcs. apply andb_true_iff in Hcs. destruct Hcs as [Hc Hcs].
  cbn [exec_all] in H. unfold bind in H.
  destruct (exec c w) as [w1 [[]|e]] eqn:E; [|discriminate].
  destruct Hin as [->|Hin].
  - cbn [call_cannot_create] in Hc. apply negb_true_iff in Hc.
    pose proof (proj2 (whole_count needle r w w1 Hc E) eq_refl).
    pose proof (exec_all_count_le cs w1 w' Hcs H). lia.
  - pose proof (exec_count_le c w w1 Hc E). pose proof (IH w1 Hcs Hin H). lia.
Qed.

(** With no paragraph holding the needle, the call that looks for it
    raises, unless an earlier call has raised already. *)
Lemma exec_all_raises_when_absent (cs : list call) (r : str) (w : World) :
  forallb (call_cannot_create needle) cs = true ->
  In (ParagraphContains needle r) cs ->
  norm_count needle (doc w) = 0 ->
  exists w' e, exec_all cs w = (w', Raise e).
Proof.
  revert w. induction cs as [|c cs IH]; intros w Hcs Hin H0; [destruct Hin|].
  cbn [forallb] in Hcs. apply andb_true_iff in Hcs. destruct Hcs as [Hc Hcs].
  cbn [exec_all]. unfold bind.
  destruct (exec c w) as [w1 [[]|e]] eqn:E; [|now exists w1, e].
  destruct Hin as [->|Hin].
  - exfalso. cbn [call_cannot_create] in Hc. apply negb_true_iff in Hc.
    pose proof (proj2 (whole_count needle r w w1 Hc E) eq_refl). lia.
  - apply IH; try assumption.
    pose proof (exec_count_le c w w1 Hc E). lia.
Qed.

(** The scan cannot put the needle into a paragraph either. *)
Lemma normalize_body_keeps (p : Paragraph) :
  ~ In rparen needle ->
  ~ occurs_in needle (lit "STATE OF {state} ") ->
  ~ occurs_in needle (lit "COUNTY OF {county} )SS.:") ->
  occurs_in needle (normalized (text (normalize_body p))) ->
  occurs_in needle (normalized (text p)).
Proof.
  intros Hparen Hstate Hcounty. unfold normalize_body.
  fold (normalized (text p)). fold (normalized_trimmed (text p)).
  destruct (startswith (normalized_trimmed (text p)) (lit "COUNTY")
            && contains (lit ")SS") (normalized_trimmed (text p))).
  - intros H. exfalso. apply Hcounty. exact H.
  - destruct (startswith (normalized_trimmed (text p)) (lit "STATE OF")
              && contains [rparen] (normalized_trimmed (text p))) eqn:E;
      [|trivial].
    apply andb_true_iff in E. destruct E as [_ E].
    apply contains_iff, occurs_in_char, first_occurrence in E.
    destruct E as [pre [rest [Heq Hpre]]].
    rewrite Heq, slice_from_find by assumption. cbn [set_text text].
    rewrite normalized_map, map_app. cbn [map].
    intros H. apply occurs_split_char in H; [|exact Hparen].
    destruct H as [H|H]; [exfalso; apply Hstate; exact H|].
    rewrite <- normalized_map in H.
    rewrite <- (normalized_idem (text p)).
    apply (occurs_in_trans _ _ _ H), occurs_in_normalized.
    apply (occurs_in_trans _ (normalized_trimmed (text p)));
      [|apply strip_occurs].
    rewrite Heq. apply occurs_in_app_r, (occurs_in_app_r _ [rparen]).
    apply occurs_in_refl.
Qed.

End RerunFacts.

Section RerunRaises.

Import Rerun.

Lemma stale_needle_is_required (cs : list call) (needle : str) :
  In needle
     (flat_map (fun c => match c with
                         | ParagraphContains n r =>
                             if contains n r then [] else [n]
                         | TextInParagraph _ _ => []
                         end) cs) ->
  exists r, In (ParagraphContains needle r) cs.
Proof.
  induction cs as [|c cs IH]; [intros []|].
  cbn [flat_map]. intros H. apply in_app_or in H. destruct H as [H|H].
  - destruct c as [n r|n r]; [|destruct H].
    destruct (contains n r); [destruct H|].
    destruct H as [<-|[]]. exists r. now left.
  - destruct (IH H) as [r Hr]. exists r. now right.
Qed.

Lemma raised_needle_is_required (w w' : World) (n : str) :
  exec_all rewrite_calls w = (w', Raise (ValueError n)) ->
  In n required_needles.
Proof.
  intros H. apply exec_all_raises in H.
  destruct H as [pre [n' [r [post [Hcs [_ [_ E]]]]]]]. injection E as ->.
  unfold required_needles. rewrite Hcs. apply in_flat_map.
  exists (ParagraphContains n' r). split; [|now left].
  apply in_or_app. right. now left.
Qed.

Lemma stale_needles_cannot_be_created :
  forallb cannot_be_created stale_needles = true.
Proof. vm_compute. reflexivity. Qed.

End RerunRaises.

(** C8, as stated, fails: on the document that has two paragraphs for each
    needle whose replacement does not contain it, the run returns, and the
    run on its result returns again. *)
Lemma rerun_twice_document_returns :
  exists w1 w2,
    run Rerun.twice_document = (w1, Ok tt) /\
    run (doc w1) = (w2, Ok tt).
Proof.
  exists (fst (run Rerun.twice_document)).
  exists (fst (run (doc (fst (run Rerun.twice_document))))).
  split; vm_compute; reflexivity.
Qed.

(** C8, as amended.  Take a needle of a [replace_paragraph_contains] call
    whose replacement does not contain it ("If No Registration",
    "On this _____ day of _________" or "This Agreement is made and entered
    into this ______ day of").  If at most one paragraph of the input holds
    it (non-breaking spaces read as spaces) and the run on the input
    returns, then the run on the resulting document raises a value error:
    the one paragraph that held the needle was rewritten, and nothing [main]
    writes brings the needle back. *)
Theorem rerun_raises (needle : str) (d : Document) (w' : World) :
  In needle Rerun.stale_needles ->
  Rerun.norm_count needle d <= 1 ->
  run d = (w', Ok tt) ->
  exists w'' n,
    run (doc w') = (w'', Raise (ValueError n)) /\
    In n Rerun.required_needles /\
    saves (trace w'') = [].
Proof.
  intros Hstale Hcount Hrun.
  destruct (stale_needle_is_required _ _ Hstale) as [r Hr].
  pose proof stale_needles_cannot_be_created as Hc.
  rewrite forallb_forall in Hc. specialize (Hc needle Hstale).
  unfold Rerun.cannot_be_created in Hc.
  rewrite !andb_true_iff, !negb_true_iff in Hc.
  destruct Hc as [[[[Hnb Hparen] Hcalls] Hstate] Hcounty].
  apply mem_false in Hnb, Hparen. apply contains_false_iff in Hstate, Hcounty.
  destruct (run_cases d) as [[w1 [H1 Hrun1]]|[w1 [e [_ [Hrun1 _]]]]];
    rewrite Hrun1 in Hrun; [|discriminate].
  injection Hrun as <-. cbn [doc].
  pose proof (exec_all_count_lt needle Hnb _ r _ _ Hcalls Hr H1) as Hlt.
  cbn [doc] in Hlt.
  pose proof (norm_count_map_le needle normalize_body (doc w1)
                (fun p => normalize_body_keeps needle p Hparen Hstate Hcounty))
    as Hscan.
  destruct (exec_all_raises_when_absent needle Hnb rewrite_calls r
              {| doc := map normalize_body (doc w1); trace := [] |}
              Hcalls Hr) as [w2 [e He]]; [cbn [doc]; lia|].
  destruct (run_cases (map normalize_body (doc w1)))
    as [[w3 [H3 _]]|[w3 [e3 [H3' [Hrun3 Ht3]]]]].
  - rewrite He in H3. discriminate.
  - destruct e3 as [n]. exists w3, n. split; [exact Hrun3|].
    split; [exact (raised_needle_is_required _ _ _ H3') | now rewrite Ht3].
Qed.

(** One paragraph for each required needle: the second run raises. *)
Lemma rerun_raises_witness :
  exists w'' n,
    run (doc (fst (run Rerun.once_document)))
    = (w'', Raise (ValueError n)) /\
    In n Rerun.required_needles /\
    saves (trace w'') = [].
Proof.
  apply (rerun_raises (lit "If No Registration") Rerun.once_document
           (fst (run Rerun.once_document))).
  - vm_compute. left. reflexivity.
  - vm_compute. apply le_n.
  - vm_compute. reflexivity.
Defined.

(* ================================================================== *)
(** ** The dump *)

Section Dump.

Import DumpContract.

Lemma dump_loop_lines (i : nat) (ps : list Paragraph) (f : str) :
  dump_loop i ps f
  = f ++ concat (flat_map line_of (combine (seq i (length ps)) ps)).
Proof.
  revert i f. induction ps as [|p ps IH]; intros i f.
  - cbn. now rewrite app_nil_r.
  - cbn [dump_loop length seq combine flat_map]. rewrite IH.
    unfold line_of at 2. cbn [fst snd]. unfold write_line.
    destruct (strip (text p)) as [|c t]; cbn [app concat].
    + reflexivity.
    + now rewrite <- app_assoc.
Qed.

Lemma enumerate_from_In (a : nat) (d : Document) (i : nat) (p : Paragraph) :
  In (i, p) (combine (seq a (length d)) d) <->
  a <= i /\ nth_error d (i - a) = Some p.
Proof.
  revert a. induction d as [|q d IH]; intros a.
  - cbn. split; [intros [] | intros [_ H]].
    destruct (i - a); discriminate.
  - cbn [length seq combine In]. rewrite IH. split.
    + intros [E|[Hle Hn]].
      * injection E as -> ->. rewrite Nat.sub_diag. split; [lia | reflexivity].
      * split; [lia|]. replace (i - a) with (S (i - S a)) by lia. exact Hn.
    + intros [Hle Hn]. destruct (Nat.eq_dec a i) as [->|Hne].
      * left. rewrite Nat.sub_diag in Hn. cbn in Hn. now injection Hn as ->.
      * right. split; [lia|].
        replace (i - a) with (S (i - S a)) in Hn by lia. exact Hn.
Qed.

Lemma report_lines_length_from (a : nat) (d : Document) :
  length (flat_map line_of (combine (seq a (length d)) d))
  = length (filter (fun p => negb (blank p)) d).
Proof.
  revert a. induction d as [|p d IH]; intros a; [reflexivity|].
  cbn [length seq combine flat_map filter]. rewrite length_app, IH.
  unfold line_of, blank. cbn [snd].
  destruct (strip (text p)); reflexivity.
Qed.

(** C7.  The dump writes, for each paragraph whose trimmed text is not
    empty and for no other, the line "{index}: {trimmed_text}" ended by a
    newline, where the index is the position of the paragraph in the
    document counted from 0; the lines come in the order of the
    paragraphs; the document is the same afterwards.  A line is what one
    [f.write] appends: the trimmed text goes into it as it is. *)
Theorem dump_contract_report (d : Document) :
  dump_contract d = (d, concat (report_lines d)) /\
  length (report_lines d) = length (filter (fun p => negb (blank p)) d) /\
  (forall line,
      In line (report_lines d) <->
      exists i p,
        nth_error d i = Some p /\
        strip (text p) <> [] /\
        line = str_of_nat i ++ lit ": " ++ strip (text p) ++ [newline]).
Proof.
  split; [|split].
  - unfold dump_contract. now rewrite dump_loop_lines.
  - apply report_lines_length_from.
  - intros line. unfold report_lines, enumerate.
    rewrite in_flat_map. split.
    + intros [[i p] [Hin Hline]]. apply enumerate_from_In in Hin.
      destruct Hin as [_ Hn]. rewrite Nat.sub_0_r in Hn.
      unfold line_of in Hline. cbn [fst snd] in Hline.
      exists i, p. destruct (strip (text p)) as [|c t]; [destruct Hline|].
      destruct Hline as [<-|[]]. repeat split; [exact Hn | discriminate].
    + intros [i [p [Hn [Hne ->]]]]. exists (i, p). split.
      * apply enumerate_from_In. rewrite Nat.sub_0_r. split; [lia | exact Hn].
      * unfold line_of. cbn [fst snd].
        destruct (strip (text p)) as [|c t]; [congruence | now left].
Qed.

End Dump.

(* ================================================================== *)
(** ** Worked examples *)

Example replace_overlapping :
  replace (lit "aaa") (lit "aa") (lit "b") = lit "ba".
Proof. reflexivity. Qed.

Example replace_empty_old :
  replace (lit "abc") [] (lit "-") = lit "-a-b-c-".
Proof. reflexivity. Qed.

Example strip_unicode_space :
  strip ([nbsp] ++ lit " a b  " ++ [newline]) = lit "a b".
Proof. reflexivity. Qed.

Example find_first_paren : find (lit "ab)c)") [rparen] = 2%Z.
Proof. reflexivity. Qed.

Example find_absent : find (lit "abc") [rparen] = (-1)%Z.
Proof. reflexivity. Qed.

Example stale_needles_are :
  Rerun.stale_needles
  = [lit "If No Registration"; lit "On this _____ day of _________";
     lit "This Agreement is made and entered into this ______ day of"].
Proof. reflexivity. Qed.

(** After one run on [twice_document] each stale needle is still held by
    one paragraph, its second; after two runs by none. *)
Example twice_document_after_runs :
  let d1 := doc (fst (run Rerun.twice_document)) in
  let d2 := doc (fst (run d1)) in
  map (fun n => Rerun.norm_count n Rerun.twice_document) Rerun.stale_needles
  = [2; 2; 2] /\
  map (fun n => Rerun.norm_count n d1) Rerun.stale_needles = [1; 1; 1] /\
  map (fun n => Rerun.norm_count n d2) Rerun.stale_needles = [0; 0; 0].
Proof. vm_compute. repeat split. Qed.

(** The signature block of the contract. *)
Example normalize_state_of :
  map text (map normalize_body
    (doc_of_texts [lit "STATE OF NEW YORK" ++ [nbsp] ++ lit " ) x ) y ";
                   lit "COUNTY OF KINGS )SS.:";
                   lit "STATE OF (______), County of (_____)"]))
  = [lit "STATE OF {state} ) x ) y";
     lit "COUNTY OF {county} )SS.:";
     lit "STATE OF {state} ), County of (_____)"].
Proof. reflexivity. Qed.

(** Seven paragraphs, the ones at positions 2 and 5 blank: five lines, with
    the positions 0, 1, 3, 4 and 6. *)
Example dump_skips_blank :
  snd (DumpContract.dump_contract
         (doc_of_texts [lit "a"; lit " b"; lit "  "; lit "d "; lit "e";
                        [nbsp]; lit "g"]))
  = lit "0: a" ++ [newline] ++ lit "1: b" ++ [newline]
    ++ lit "3: d" ++ [newline] ++ lit "4: e" ++ [newline]
    ++ lit "6: g" ++ [newline].
Proof. reflexivity. Qed.

(* ================================================================== *)
(** ** Occurrences next to an inserted text *)

Section OverlapFacts.

Import Overlap.

Lemma str_eqb_eq (a b : str) : str_eqb a b = true <-> a = b.
Proof.
  unfold str_eqb. destruct (list_eq_dec N.eq_dec a b); split; congruence.
Qed.

Lemma clash_not_prefix (a b x y : str) :
  clash a b = true -> a ++ x <> b ++ y.
Proof.
  revert b. induction a as [|c a IH]; intros b H; [discriminate|].
  destruct b as [|d b]; [discriminate|].
  cbn [clash] in H. apply orb_true_iff in H. intros E. injection E as E1 E2.
  destruct H as [H|H].
  - apply negb_true_iff, N.eqb_neq in H. contradiction.
  - exact (IH b H E2).
Qed.

Variables needle r : str.
Hypothesis safe : cannot_overlap needle r = true.

Lemma no_overlap (g x : str) :
  occurs_in needle (g ++ r ++ x) ->
  occurs_in needle g \/ occurs_in needle x.
Proof.
  unfold cannot_overlap in safe.
  destruct needle as [|n0 needle'] eqn:En; [discriminate|].
  destruct r as [|h r'] eqn:Er; [discriminate|].
  rewrite !andb_true_iff, !negb_true_iff in safe.
  destruct safe as [[Hh Hn0] Hclash].
  apply mem_false in Hh, Hn0.
  intros [a [b H]].
  apply app_eq_app in H. destruct H as [l [[H1 H2]|[H1 H2]]].
  - (* the occurrence starts in [g] *)
    destruct l as [|c l].
    + (* ... at its very end: it starts where [r] does *)
      rewrite app_nil_l in H2. exfalso.
      exact (clash_not_prefix _ _ _ _ Hclash H2).
    + apply app_eq_app in H2. destruct H2 as [m [[H3 H4]|[H3 H4]]].
      * destruct m as [|c' m].
        -- left. exists a, []. rewrite H1, H3. now rewrite !app_nil_r.
        -- injection H4 as <- _. exfalso. injection H3 as _ H3.
           apply Hh. rewrite H3. apply in_or_app. right. now left.
      * left. exists a, m. now rewrite H1, H3.
  - (* the occurrence starts after the start of [r] *)
    destruct l as [|c l].
    + rewrite app_nil_l in H2. exfalso. symmetry in H2.
      exact (clash_not_prefix _ _ _ _ Hclash H2).
    + injection H2 as _ H2.
      apply app_eq_app in H2. destruct H2 as [m [[H3 H4]|[H3 H4]]].
      * destruct m as [|c' m].
        -- right. rewrite app_nil_l in H4. rewrite <- H4. now exists [], b.
        -- exfalso. injection H4 as <- _. apply Hn0. rewrite H3.
           apply in_or_app. right. now left.
      * right. rewrite H4. now exists m, b.
Qed.

Lemma no_overlap_join (segs : list str) :
  occurs_in needle (join r segs) ->
  exists g, In g segs /\ occurs_in needle g.
Proof.
  assert (Hne : ~ occurs_in needle []).
  { intros H. apply occurs_in_length in H. unfold cannot_overlap in safe.
    destruct needle; [discriminate | simpl in H; lia]. }
  destruct segs as [|g segs]; [intros H; now destruct Hne|].
  revert g. induction segs as [|g1 segs IH]; intros g H.
  - cbn [join flat_map] in H. rewrite app_nil_r in H.
    exists g. split; [now left | exact H].
  - cbn [join flat_map] in H. rewrite <- app_assoc in H.
    apply no_overlap in H. destruct H as [H|H].
    + exists g. split; [now left | exact H].
    + destruct (IH g1 H) as [g' [Hin Hocc]].
      exists g'. split; [now right | exact Hocc].
Qed.

(** Replacing by [r] cannot bring [needle] into a text. *)
Lemma replace_cannot_create (t old : str) :
  occurs_in needle (replace t old r) -> occurs_in needle t.
Proof.
  destruct (replace_segments t old r) as [segs [Ht [Hr _]]].
  rewrite Hr. intros H. apply no_overlap_join in H.
  destruct H as [g [Hin Hocc]]. rewrite Ht.
  apply (occurs_in_trans _ g); [exact Hocc | now apply occurs_in_join_seg].
Qed.

End OverlapFacts.

(** Replacing [old] by a text it cannot overlap leaves no [old]. *)
Lemma replace_removes (t old r : str) :
  Overlap.cannot_overlap old r = true -> ~ occurs_in old (replace t old r).
Proof.
  intros Hsafe H.
  destruct (replace_segments t old r) as [segs [Ht [Hr Hfree]]].
  rewrite Hr in H. apply (no_overlap_join old r Hsafe) in H.
  destruct H as [g [Hin Hocc]].
  assert (Hne : old <> []) by (intros ->; discriminate).
  specialize (Hfree Hne). rewrite Forall_forall in Hfree.
  exact (Hfree g Hin Hocc).
Qed.

(* ================================================================== *)
(** ** More on the rewrite functions *)

Section MoreRewrites.

Import Overlap.


Lemma holding_app (n : str) (a b : Document) :
  holding n (a ++ b) = holding n a + holding n b.
Proof. unfold holding. now rewrite filter_app, length_app. Qed.

Lemma holding_cons (n : str) (p : Paragraph) (d : Document) :
  holding n (p :: d) = (if contains n (text p) then 1 else 0) + holding n d.
Proof. unfold holding. cbn [filter]. now destruct (contains n (text p)). Qed.

Lemma holding_zero (n : str) (d : Document) :
  holding n d = 0 <-> (forall q, In q d -> ~ occurs_in n (text q)).
Proof.
  induction d as [|p d IH].
  - split; [intros _ q [] | reflexivity].
  - rewrite holding_cons. destruct (contains n (text p)) eqn:E.
    + split; [discriminate|]. intros H. exfalso.
      apply (H p); [now left | now apply contains_iff].
    + cbn [Nat.add]. rewrite IH. split.
      * intros H q [<-|Hq]; [now apply contains_false_iff | now apply H].
      * intros H q Hq. apply H. now right.
Qed.


Lemma with_doc_same (w : World) : with_doc w (doc w) = w.
Proof. now destruct w. Qed.


End MoreRewrites.



(** X2.  A call of [replace_paragraph_contains] with a replacement that
    the container stores as it is given, when it returns, takes one
    paragraph away from those that contain the needle when the replacement
    does not contain it, and leaves their number as it was when the
    replacement contains it. *)
Theorem replace_paragraph_contains_holding (n r : str) (w w' : World) :
  Docx.verbatim r = true ->
  General.replace_paragraph_contains n r w = (w', General.Returned) ->
  holding n (doc w') + (if contains n r then 0 else 1) = holding n (doc w).
Proof.
  intros Hv H.
  rewrite (general_replace_paragraph_contains_verbatim n r w Hv) in H.
  destruct (replace_paragraph_contains_cases n r w)
    as [[pre [p [post [Hd [_ [Hp Hrun]]]]]]|[_ Hrun]];
    rewrite Hrun in H; [|discriminate].
  injection H as <-. cbn [with_doc doc]. rewrite Hd.
  rewrite !holding_app, !holding_cons. cbn [set_text text].
  rewrite (proj2 (contains_iff _ _) Hp).
  destruct (contains n r); lia.
Qed.

Lemma replace_paragraph_contains_holding_witness :
  holding (lit "If No Registration")
    (doc_of_texts [lit "x"; lit "{#isPet}If registered{/isPet}";
                   lit "If No Registration 2"])
  + (if contains (lit "If No Registration") (lit "{#isPet}If registered{/isPet}")
     then 0 else 1)
  = holding (lit "If No Registration")
      (doc_of_texts [lit "x"; lit "If No Registration 1";
                     lit "If No Registration 2"]).
Proof.
  apply (replace_paragraph_contains_holding
           (lit "If No Registration") (lit "{#isPet}If registered{/isPet}")
           {| doc := doc_of_texts [lit "x"; lit "If No Registration 1";
                                   lit "If No Registration 2"];
              trace := [] |}
           {| doc := doc_of_texts [lit "x"; lit "{#isPet}If registered{/isPet}";
                                   lit "If No Registration 2"];
              trace := [] |}).
  - reflexivity.
  - reflexivity.
Defined.


(** X4.  The three substring replacements of [main] cannot overlap their
    needle and are stored by the container as they are given.  With such
    a pair, on a document whose texts the container stores as given,
    [replace_text_in_paragraph] returns, no paragraph contains the needle
    any more, and a second call with the same pair returns and changes
    nothing. *)
Theorem replace_text_in_paragraph_removes :
  (forall n r, In (TextInParagraph n r) rewrite_calls ->
               Overlap.cannot_overlap n r = true /\
               Docx.verbatim r = true) /\
  (forall n r w,
      Overlap.cannot_overlap n r = true ->
      Docx.verbatim r = true ->
      (forall q, In q (doc w) -> Docx.verbatim (text q) = true) ->
      exists w',
        General.replace_text_in_paragraph n r w = (w', General.Returned) /\
        (forall q, In q (doc w') -> ~ occurs_in n (text q)) /\
        General.replace_text_in_paragraph n r w' = (w', General.Returned)).
Proof.
  split.
  - intros n r Hin.
    assert (H : forallb (fun c => match c with
                                  | TextInParagraph n r =>
                                      Overlap.cannot_overlap n r
                                      && Docx.verbatim r
                                  | ParagraphContains _ _ => true
                                  end) rewrite_calls = true)
      by (vm_compute; reflexivity).
    rewrite forallb_forall in H. apply andb_true_iff. exact (H _ Hin).
  - intros n r w Hsafe Hr Hw.
    rewrite (general_replace_text_in_paragraph_verbatim n r w Hr Hw).
    eexists. split; [reflexivity|]. cbn [doc].
    assert (Hfree : forall q,
               In q (map (replace_text_in_paragraph_body n r) (doc w)) ->
               ~ occurs_in n (text q)).
    { intros q Hq. apply in_map_iff in Hq. destruct Hq as [p [<- _]].
      unfold replace_text_in_paragraph_body.
      destruct (contains n (text p)) eqn:E.
      - cbn [set_text text]. now apply replace_removes.
      - now apply contains_false_iff. }
    split; [exact Hfree|].
    rewrite general_replace_text_in_paragraph_verbatim; [|exact Hr|].
    + cbn [doc trace]. f_equal. f_equal.
      transitivity (map (fun p : Paragraph => p)
                      (map (replace_text_in_paragraph_body n r) (doc w)));
        [|apply map_id].
      apply map_ext_in.
      intros q Hq. unfold replace_text_in_paragraph_body at 1.
      now rewrite (proj2 (contains_false_iff _ _) (Hfree q Hq)).
    + cbn [doc]. intros q Hq. apply in_map_iff in Hq.
      destruct Hq as [p [<- Hp]]. unfold replace_text_in_paragraph_body.
      destruct (contains n (text p)); [|now apply Hw].
      cbn [set_text text]. apply verbatim_replace; [now apply Hw | exact Hr].
Qed.

(** The first substring replacement of [main] on a notary line. *)
Lemma replace_text_in_paragraph_removes_witness :
  exists w',
    General.replace_text_in_paragraph
      (lit "State of ________, County of ________")
      (lit "State of {state}, County of {county}")
      {| doc := doc_of_texts
                  [lit "Notary"; lit "in the State of ________, County of ________."];
         trace := [] |}
    = (w', General.Returned) /\
    (forall q, In q (doc w') ->
               ~ occurs_in (lit "State of ________, County of ________") (text q)) /\
    General.replace_text_in_paragraph
      (lit "State of ________, County of ________")
      (lit "State of {state}, County of {county}") w'
    = (w', General.Returned).
Proof.
  apply (proj2 replace_text_in_paragraph_removes
           (lit "State of ________, County of ________")
           (lit "State of {state}, County of {county}")
           {| doc := doc_of_texts
                       [lit "Notary";
                        lit "in the State of ________, County of ________."];
              trace := [] |}).
  - reflexivity.
  - reflexivity.
  - intros q Hq. destruct Hq as [<-|[<-|[]]]; reflexivity.
Defined.

(* ================================================================== *)
(** ** More on the scan *)

Section MoreScan.

Lemma lstrip_head (s : str) (c : char) (t : str) :
  lstrip s = c :: t -> isspace c = false.
Proof.
  induction s as [|d s IH]; [discriminate|]. cbn [lstrip].
  destruct (isspace d) eqn:E; [exact IH|]. intros H. injection H as <- _. exact E.
Qed.

Lemma lstrip_fixed (c : char) (t : str) :
  isspace c = false -> lstrip (c :: t) = c :: t.
Proof. intros H. cbn [lstrip]. now rewrite H. Qed.

Lemma rstrip_last (s t : str) (z : char) :
  rstrip s = t ++ [z] -> isspace z = false.
Proof.
  unfold rstrip. intros H. apply (f_equal (@rev char)) in H.
  rewrite rev_involutive, rev_app_distr in H. cbn [rev app] in H.
  exact (lstrip_head _ _ _ H).
Qed.

Lemma rstrip_fixed (t : str) (z : char) :
  isspace z = false -> rstrip (t ++ [z]) = t ++ [z].
Proof.
  intros H. unfold rstrip. rewrite rev_app_distr. cbn [rev app].
  rewrite lstrip_fixed by exact H. cbn [rev]. now rewrite rev_involutive.
Qed.

Lemma last_app_cons (a : str) (c : char) (b : str) (d : char) :
  last (a ++ c :: b) d = last (c :: b) d.
Proof.
  induction a as [|x a IH]; [reflexivity|].
  cbn [app]. rewrite <- IH. cbn [last]. now destruct (a ++ c :: b) eqn:E;
    [destruct a; discriminate|].
Qed.

Lemma last_default (c : char) (t : str) (d d' : char) :
  last (c :: t) d = last (c :: t) d'.
Proof.
  revert c. induction t as [|x t IH]; intros c; [reflexivity|].
  cbn [last] in *. apply IH.
Qed.

Lemma last_split (c : char) (t : str) :
  c :: t = removelast (c :: t) ++ [last (c :: t) c].
Proof. apply app_removelast_last. discriminate. Qed.

(** A trimmed text that is not empty begins and ends with characters that
    are not white space. *)
Lemma strip_ends (s : str) (c : char) (t : str) :
  strip s = c :: t ->
  isspace c = false /\ isspace (last (c :: t) c) = false.
Proof.
  intros H. split.
  - unfold strip in H. destruct (rstrip_prefix (lstrip s)) as [b Hb].
    rewrite H in Hb. cbn [app] in Hb. exact (lstrip_head _ _ _ Hb).
  - unfold strip in H. rewrite (last_split c t) in H.
    exact (rstrip_last _ _ _ H).
Qed.

Lemma strip_fixed (c : char) (t : str) :
  isspace c = false ->
  isspace (last (c :: t) c) = false ->
  strip (c :: t) = c :: t.
Proof.
  intros Hc Hz. unfold strip. rewrite lstrip_fixed by exact Hc.
  rewrite (last_split c t). now apply rstrip_fixed.
Qed.

Lemma strip_In (c : char) (s : str) : In c (strip s) -> In c s.
Proof.
  destruct (strip_occurs s) as [a [b H]]. intros Hin. rewrite H.
  apply in_or_app. right. apply in_or_app. now left.
Qed.

Lemma normalized_no_nbsp (t : str) : ~ In nbsp (normalized t).
Proof.
  rewrite normalized_map. intros H. apply in_map_iff in H.
  destruct H as [x [Hx _]]. unfold unbreak in Hx.
  destruct (N.eqb_spec nbsp x) as [E|E]; [discriminate | congruence].
Qed.

Lemma normalized_In (c : char) (t : str) :
  c <> space -> In c (normalized t) -> In c t.
Proof.
  intros Hc. rewrite normalized_map. intros H. apply in_map_iff in H.
  destruct H as [x [Hx Hin]]. unfold unbreak in Hx.
  destruct (nbsp =? x)%N; [congruence | now subst].
Qed.

(** The three things the scan can do to a paragraph. *)
Lemma normalize_body_cases (p : Paragraph) :
  (exists pre rest,
      starts_with (normalized_trimmed (text p)) (lit "STATE OF") /\
      normalized_trimmed (text p) = pre ++ rparen :: rest /\
      normalize_body p = set_text p (lit "STATE OF {state} " ++ rparen :: rest))
  \/
  (starts_with (normalized_trimmed (text p)) (lit "COUNTY") /\
   occurs_in (lit ")SS") (normalized_trimmed (text p)) /\
   normalize_body p = set_text p (lit "COUNTY OF {county} )SS.:"))
  \/
  normalize_body p = p.
Proof.
  destruct (startswith (normalized_trimmed (text p)) (lit "STATE OF")
            && contains [rparen] (normalized_trimmed (text p))) eqn:E1.
  - left. apply andb_true_iff in E1. destruct E1 as [Hst Hc].
    apply startswith_iff in Hst.
    apply contains_iff, occurs_in_char, first_occurrence in Hc.
    destruct Hc as [pre [rest [Heq Hpre]]]. exists pre, rest.
    split; [exact Hst|]. split; [exact Heq|].
    exact (proj1 (normalize_body_state_of p pre rest Hst Heq Hpre)).
  - right.
    destruct (startswith (normalized_trimmed (text p)) (lit "COUNTY")
              && contains (lit ")SS") (normalized_trimmed (text p))) eqn:E2.
    + left. apply andb_true_iff in E2. destruct E2 as [Hst Hc].
      apply startswith_iff in Hst. apply contains_iff in Hc.
      split; [exact Hst|]. split; [exact Hc|].
      now apply normalize_body_county.
    + right. unfold normalize_body. fold (normalized (text p)).
      fold (normalized_trimmed (text p)). now rewrite E1, E2.
Qed.

Lemma normalize_body_again (p : Paragraph) :
  normalize_body (normalize_body p) = normalize_body p.
Proof.
  destruct (normalize_body_cases p)
    as [[pre [rest [Hst [Heq ->]]]]|[[_ [_ ->]]|E]].
  - (* the rewritten "STATE OF" line is normalized and trimmed already *)
    assert (Hnt : normalized_trimmed (lit "STATE OF {state} " ++ rparen :: rest)
                  = lit "STATE OF {state} " ++ rparen :: rest).
    { unfold normalized_trimmed.
      assert (Hsub : forall c, In c (rparen :: rest) ->
                               In c (normalized (text p))).
      { intros c Hc. apply strip_In. fold (normalized_trimmed (text p)).
        rewrite Heq. apply in_or_app. now right. }
      rewrite normalized_fixed.
      - change (lit "STATE OF {state} " ++ rparen :: rest)
          with (83%N :: (tl (lit "STATE OF {state} ") ++ rparen :: rest)).
        set (label := tl (lit "STATE OF {state} ")).
        apply strip_fixed; [reflexivity|].
        change (83%N :: (label ++ rparen :: rest))
          with ((83%N :: label) ++ rparen :: rest).
        rewrite last_app_cons.
        destruct (normalized_trimmed (text p)) as [|c t] eqn:Ent;
          [destruct pre; discriminate|].
        pose proof (proj2 (strip_ends _ _ _ Ent)) as Hz.
        rewrite Heq, last_app_cons in Hz.
        rewrite (last_default _ _ 83%N c). exact Hz.
      - intros H. apply in_app_or in H. destruct H as [H|H].
        + vm_compute in H. intuition discriminate.
        + exact (normalized_no_nbsp _ (Hsub _ H)). }
    destruct (normalize_body_state_of
                (set_text p (lit "STATE OF {state} " ++ rparen :: rest))
                (lit "STATE OF {state} ") rest) as [H _].
    + cbn [set_text text]. rewrite Hnt.
      exists (lit " {state} " ++ rparen :: rest). reflexivity.
    + cbn [set_text text]. exact Hnt.
    + vm_compute. intuition discriminate.
    + rewrite H. reflexivity.
  - rewrite (normalize_body_county
               (set_text p (lit "COUNTY OF {county} )SS.:"))).
    + reflexivity.
    + apply startswith_iff. reflexivity.
    + apply contains_iff. reflexivity.
  - now rewrite !E.
Qed.

End MoreScan.

(** X5.  The scan is idempotent: run on a document it has already been
    run on, it changes nothing. *)
Theorem normalization_scan_again (w : World) :
  normalization_scan (fst (normalization_scan w))
  = (fst (normalization_scan w), Ok tt).
Proof.
  unfold normalization_scan, with_doc. cbn [fst doc trace]. f_equal. f_equal.
  rewrite map_map. apply map_ext. intros p. apply normalize_body_again.
Qed.

(** X6.  The scan leaves a paragraph whose text has no closing
    parenthesis as it is. *)
Theorem normalization_scan_without_paren (w : World) (i : nat) (p : Paragraph) :
  nth_error (doc w) i = Some p ->
  ~ In rparen (text p) ->
  nth_error (doc (fst (normalization_scan w))) i = Some p.
Proof.
  intros Hi Hno.
  assert (Hnt : ~ In rparen (normalized_trimmed (text p))).
  { intros H. apply Hno. apply strip_In, normalized_In in H; [exact H|].
    discriminate. }
  rewrite (proj2 (normalization_scan_nth w i p Hi)). f_equal.
  destruct (normalize_body_cases p)
    as [[pre [rest [_ [Heq _]]]]|[[_ [Hc _]]|E]]; [| |exact E]; exfalso;
    apply Hnt.
  - rewrite Heq. apply in_or_app. right. now left.
  - destruct Hc as [a [b ->]]. apply in_or_app. right. now left.
Qed.

Lemma normalization_scan_without_paren_witness :
  nth_error
    (doc (fst (normalization_scan
                 {| doc := doc_of_texts [lit "STATE OF (x)"; lit "STATE OF y"];
                    trace := [] |}))) 1
  = Some {| elem := 1; text := lit "STATE OF y" |}.
Proof.
  apply (normalization_scan_without_paren
           {| doc := doc_of_texts [lit "STATE OF (x)"; lit "STATE OF y"];
              trace := [] |} 1 {| elem := 1; text := lit "STATE OF y" |}).
  - reflexivity.
  - vm_compute. intuition discriminate.
Defined.

(* ================================================================== *)
(** ** More on runs of [main] *)

Section MoreRuns.

Import Overlap.

Lemma text_normalize_body (p : Paragraph) :
  text (normalize_body p)
  = text (normalize_body {| elem := 0; text := text p |}).
Proof.
  unfold normalize_body. cbn [text].
  repeat match goal with |- context [if ?b then _ else _] => destruct b end;
    reflexivity.
Qed.

(** A paragraph whose text holds no needle of the call outlives it. *)
Lemma exec_keeps_text (r : str) (c : call) (w w' : World) :
  contains (needle_of c) r = false ->
  (exists p, In p (doc w) /\ text p = r) ->
  exec c w = (w', Ok tt) ->
  exists p, In p (doc w') /\ text p = r.
Proof.
  intros Hc [p [Hin Hp]] H. destruct c as [n t|n t]; cbn [needle_of exec] in *.
  - destruct (replace_paragraph_contains_cases n t w)
      as [[pre [q [post [Hd [_ [Hq Hrun]]]]]]|[_ Hrun]];
      rewrite Hrun in H; [|discriminate].
    injection H as <-. cbn [with_doc doc]. exists p. split; [|exact Hp].
    rewrite Hd in Hin. apply in_app_or in Hin. apply in_or_app.
    destruct Hin as [Hin|[E|Hin]]; [now left | | right; now right].
    exfalso. subst q. rewrite Hp in Hq. apply contains_iff in Hq. congruence.
  - unfold replace_text_in_paragraph in H. injection H as <-.
    cbn [with_doc doc]. exists p. split; [|exact Hp].
    apply in_map_iff. exists p. split; [|exact Hin].
    unfold replace_text_in_paragraph_body. now rewrite Hp, Hc.
Qed.

Lemma exec_all_keeps_text (r : str) (cs : list call) (w w' : World) :
  stable_after r cs = true ->
  (exists p, In p (doc w) /\ text p = r) ->
  exec_all cs w = (w', Ok tt) ->
  exists p, In p (doc w') /\ text p = r.
Proof.
  revert w. induction cs as [|c cs IH]; intros w Hs Hp H.
  - cbn in H. now injection H as <-.
  - unfold stable_after in Hs. cbn [forallb] in Hs.
    apply andb_true_iff in Hs. destruct Hs as [Hc Hs].
    apply negb_true_iff in Hc.
    cbn [exec_all] in H. unfold bind in H.
    destruct (exec c w) as [w1 [[]|e]] eqn:E; [|discriminate].
    apply (IH w1 Hs); [|exact H]. exact (exec_keeps_text r c w w1 Hc Hp E).
Qed.

Lemma exec_all_replacements (cs : list call) (w w' : World) (r : str) :
  all_stable cs = true ->
  exec_all cs w = (w', Ok tt) ->
  In r (replacements cs) ->
  scan_fixed r = true /\ exists p, In p (doc w') /\ text p = r.
Proof.
  revert w. induction cs as [|c cs IH]; intros w Hs H Hin; [destruct Hin|].
  cbn [exec_all] in H. unfold bind in H.
  destruct (exec c w) as [w1 [[]|e]] eqn:E; [|discriminate].
  destruct c as [n t|n t]; cbn [all_stable replacements flat_map] in Hs, Hin.
  - rewrite !andb_true_iff in Hs. destruct Hs as [[Hst Hsc] Hs].
    cbn [app] in Hin. destruct Hin as [<-|Hin]; [|exact (IH w1 Hs H Hin)].
    split; [exact Hsc|]. apply (exec_all_keeps_text t cs w1 w' Hst); [|exact H].
    cbn [exec] in E.
    destruct (replace_paragraph_contains_cases n t w)
      as [[pre [q [post [_ [_ [_ Hrun]]]]]]|[_ Hrun]];
      rewrite Hrun in E; [|discriminate].
    injection E as <-. cbn [with_doc doc]. exists (set_text q t).
    split; [apply in_or_app; right; now left | reflexivity].
  - exact (IH w1 Hs H Hin).
Qed.

Lemma replacement_of_call (cs : list call) (n r : str) :
  In (ParagraphContains n r) cs -> In r (replacements cs).
Proof.
  intros H. unfold replacements. apply in_flat_map.
  exists (ParagraphContains n r). split; [exact H | now left].
Qed.

Lemma distinct_NoDup (l : list str) : distinct l = true -> NoDup l.
Proof.
  induction l as [|x l IH]; intros H; [constructor|].
  cbn [distinct] in H. apply andb_true_iff in H. destruct H as [Hx Hl].
  constructor; [|now apply IH].
  intros Hin. apply negb_true_iff in Hx.
  assert (existsb (str_eqb x) l = true); [|congruence].
  apply existsb_exists. exists x. split; [exact Hin | now apply str_eqb_eq].
Qed.

Lemma main_calls_stable : all_stable rewrite_calls = true.
Proof. vm_compute. reflexivity. Qed.

(** The replacement texts of a run that returned are all in the document
    it ended with. *)
Lemma run_replacements (d : Document) (w' : World) (r : str) :
  run d = (w', Ok tt) ->
  In r (replacements rewrite_calls) ->
  exists p, In p (doc w') /\ text p = r.
Proof.
  intros Hrun Hin.
  destruct (run_cases d) as [[w1 [H1 Hrun1]]|[w1 [e [_ [Hrun1 _]]]]];
    rewrite Hrun1 in Hrun; [|discriminate].
  injection Hrun as <-. cbn [doc].
  destruct (exec_all_replacements _ _ _ r main_calls_stable H1 Hin)
    as [Hsc [p [Hp Ht]]].
  exists (normalize_body p). split; [now apply in_map|].
  rewrite text_normalize_body, Ht. now apply str_eqb_eq.
Qed.

(** No call before the one that looks for [needle] brings it in, so a
    document without it makes the calls raise. *)
Lemma guarded_raises (needle : str) (cs : list call) (w : World) :
  guarded needle cs = true ->
  (forall q, In q (doc w) -> ~ occurs_in needle (text q)) ->
  exists w' e, exec_all cs w = (w', Raise e).
Proof.
  revert w. induction cs as [|c cs IH]; intros w Hg Hfree; [discriminate|].
  cbn [exec_all]. unfold bind.
  destruct c as [m r|m r]; cbn [guarded exec] in *.
  - destruct (replace_paragraph_contains_cases m r w)
      as [[pre [q [post [Hd [_ [Hq Hrun]]]]]]|[_ Hrun]];
      rewrite Hrun; [|now exists w, (ValueError m)].
    destruct (str_eqb m needle) eqn:Em.
    + exfalso. apply str_eqb_eq in Em. subst m.
      apply (Hfree q); [|exact Hq]. rewrite Hd. apply in_or_app. right. now left.
    + apply andb_true_iff in Hg. destruct Hg as [Hr Hg].
      apply negb_true_iff, contains_false_iff in Hr.
      apply (IH _ Hg). cbn [with_doc doc]. intros q' Hq'.
      apply in_app_or in Hq'. destruct Hq' as [Hq'|[<-|Hq']].
      * apply Hfree. rewrite Hd. apply in_or_app. now left.
      * exact Hr.
      * apply Hfree. rewrite Hd. apply in_or_app. right. now right.
  - apply andb_true_iff in Hg. destruct Hg as [Hsafe Hg].
    unfold replace_text_in_paragraph. apply (IH _ Hg).
    cbn [with_doc doc]. intros q' Hq'. apply in_map_iff in Hq'.
    destruct Hq' as [p0 [<- Hp0]]. unfold replace_text_in_paragraph_body.
    destruct (contains m (text p0)); [|now apply Hfree].
    cbn [set_text text]. intros H.
    apply (replace_cannot_create needle r Hsafe) in H.
    exact (Hfree p0 Hp0 H).
Qed.

Lemma required_needles_guarded :
  forallb (fun n => guarded n rewrite_calls) Rerun.required_needles = true.
Proof. vm_compute. reflexivity. Qed.

End MoreRuns.

(** X7.  When a run returns, every replacement text of a
    [replace_paragraph_contains] call of [main] is the whole text of some
    paragraph of the document that was saved: no later call and not the
    scan has touched it. *)
Theorem run_keeps_replacements (d : Document) (w' : World) (n r : str) :
  run d = (w', Ok tt) ->
  In (ParagraphContains n r) rewrite_calls ->
  saves (trace w') = [doc w'] /\
  exists p, In p (doc w') /\ text p = r.
Proof.
  intros Hrun Hin. split.
  - destruct (run_cases d) as [[w1 [_ Hrun1]]|[w1 [e [_ [Hrun1 _]]]]];
      rewrite Hrun1 in Hrun; [|discriminate].
    now injection Hrun as <-.
  - apply (run_replacements d w' r Hrun).
    exact (replacement_of_call _ n r Hin).
Qed.

Lemma run_keeps_replacements_witness :
  saves (trace (fst (run Rerun.once_document)))
  = [doc (fst (run Rerun.once_document))] /\
  exists p, In p (doc (fst (run Rerun.once_document))) /\
            text p = lit "Sire: {sireName}".
Proof.
  apply (run_keeps_replacements Rerun.once_document
           (fst (run Rerun.once_document))
           (lit "Sire:") (lit "Sire: {sireName}")).
  - vm_compute. reflexivity.
  - vm_compute. do 3 right. left. reflexivity.
Defined.

(** X8.  A run can only return on a document with at least fifteen
    paragraphs: the fifteen replacement texts are different and each ends
    up in a paragraph of its own. *)
Theorem run_needs_fifteen_paragraphs (d : Document) (w' : World) :
  run d = (w', Ok tt) -> 15 <= length d.
Proof.
  intros Hrun.
  assert (Hnd : NoDup (Overlap.replacements rewrite_calls)).
  { apply distinct_NoDup. vm_compute. reflexivity. }
  assert (Hincl : incl (Overlap.replacements rewrite_calls)
                       (map text (doc w'))).
  { intros r Hr. destruct (run_replacements d w' r Hrun Hr) as [p [Hp <-]].
    now apply in_map. }
  pose proof (NoDup_incl_length Hnd Hincl) as Hlen.
  rewrite length_map in Hlen.
  assert (Hd : length (doc w') = length d).
  { pose proof (keeps_main {| doc := d; trace := [] |}) as Hk.
    fold (run d) in Hk. rewrite Hrun in Hk. cbn [fst doc] in Hk.
    rewrite <- (length_map elem (doc w')), Hk. apply length_map. }
  rewrite Hd in Hlen.
  exact (Nat.le_trans _ _ _ (Nat.eq_le_incl _ _ eq_refl) Hlen).
Qed.

Lemma run_needs_fifteen_paragraphs_witness :
  15 <= length Rerun.once_document.
Proof.
  apply (run_needs_fifteen_paragraphs Rerun.once_document
           (fst (run Rerun.once_document))).
  vm_compute. reflexivity.
Defined.

(** X9.  If no paragraph of the loaded document contains one of the
    fifteen needles that [replace_paragraph_contains] is called with, the
    run raises a value error for one of these needles and saves nothing:
    no call before the one for the missing needle can bring it in. *)
Theorem run_raises_on_missing_needle (d : Document) (n : str) :
  In n Rerun.required_needles ->
  (forall q, In q d -> ~ occurs_in n (text q)) ->
  exists w' n',
    run d = (w', Raise (ValueError n')) /\
    In n' Rerun.required_needles /\
    saves (trace w') = [].
Proof.
  intros Hn Hfree.
  pose proof required_needles_guarded as Hg. rewrite forallb_forall in Hg.
  destruct (guarded_raises n rewrite_calls {| doc := d; trace := [] |}
              (Hg n Hn) Hfree) as [w1 [e He]].
  destruct (run_cases d) as [[w2 [H2 _]]|[w2 [e2 [H2 [Hrun Ht]]]]].
  - rewrite He in H2. discriminate.
  - destruct e2 as [n']. exists w2, n'. split; [exact Hrun|].
    split; [exact (raised_needle_is_required _ _ _ H2) | now rewrite Ht].
Qed.

Lemma run_raises_on_missing_needle_witness :
  exists w' n',
    run (doc_of_texts [lit "This Agreement dated 2024"; lit "Sire: Rex"])
    = (w', Raise (ValueError n')) /\
    In n' Rerun.required_needles /\
    saves (trace w') = [].
Proof.
  apply (run_raises_on_missing_needle
           (doc_of_texts [lit "This Agreement dated 2024"; lit "Sire: Rex"])
           (lit "Dam:")).
  - vm_compute. do 4 right. left. reflexivity.
  - intros q Hq. apply contains_false_iff.
    destruct Hq as [<-|[<-|[]]]; reflexivity.
Defined.

(* ================================================================== *)
(** ** More on the dump *)

Section MoreDump.

Import DumpContract.

Lemma write_line_not_empty (i : nat) (t : str) : write_line i t <> [].
Proof.
  unfold write_line. intros H. apply app_eq_nil in H. destruct H as [_ H].
  discriminate.
Qed.

Lemma dump_loop_app (i : nat) (d1 d2 : list Paragraph) (f : str) :
  dump_loop i (d1 ++ d2) f
  = dump_loop (i + length d1) d2 (dump_loop i d1 f).
Proof.
  revert i f. induction d1 as [|p d1 IH]; intros i f.
  - cbn. now rewrite Nat.add_0_r.
  - cbn [app dump_loop length]. rewrite IH. f_equal. lia.
Qed.

Lemma dump_loop_empty_iff (i : nat) (d : list Paragraph) (f : str) :
  dump_loop i d f = [] <->
  f = [] /\ (forall p, In p d -> strip (text p) = []).
Proof.
  revert i f. induction d as [|p d IH]; intros i f.
  - cbn [dump_loop]. split.
    + intros ->. split; [reflexivity | intros p []].
    + intros [-> _]. reflexivity.
  - cbn [dump_loop]. rewrite IH.
    destruct (strip (text p)) as [|c t] eqn:E.
    + split.
      * intros [-> H]. split; [reflexivity|]. intros q [<-|Hq]; auto.
      * intros [-> H]. split; [reflexivity|]. intros q Hq. apply H. now right.
    + split.
      * intros [H _]. apply app_eq_nil in H. destruct H as [_ H].
        now apply write_line_not_empty in H.
      * intros [_ H]. specialize (H p (or_introl eq_refl)). congruence.
Qed.

(** *** The index of a line *)

Lemma lit_inj (s s' : string) : lit s = lit s' -> s = s'.
Proof.
  unfold lit. intros H.
  rewrite <- (string_of_list_ascii_of_string s),
          <- (string_of_list_ascii_of_string s').
  f_equal. revert H.
  generalize (list_ascii_of_string s) (list_ascii_of_string s').
  induction l as [|a l IH]; intros [|a' l'] H; try discriminate; [reflexivity|].
  cbn [map] in H. injection H as Ha Hl. f_equal; [|now apply IH].
  now rewrite <- (ascii_N_embedding a), <- (ascii_N_embedding a'), Ha.
Qed.

Lemma str_of_nat_inj (i j : nat) : str_of_nat i = str_of_nat j -> i = j.
Proof.
  unfold str_of_nat. intros H. apply lit_inj in H.
  assert (Hdec : forall n,
             option_map Nat.of_uint
               (NilZero.uint_of_string (NilZero.string_of_uint (Nat.to_uint n)))
             = Some n).
  { intros n. destruct (Nat.to_uint n) eqn:E;
      [rewrite NilZero.usu_nil; cbn [option_map]; f_equal;
       rewrite <- (DecimalNat.Unsigned.of_to n), E; reflexivity | ..];
      rewrite NilZero.usu by discriminate; cbn [option_map]; f_equal;
      rewrite <- E; apply DecimalNat.Unsigned.of_to. }
  pose proof (Hdec i) as Hi. rewrite H, Hdec in Hi. now injection Hi.
Qed.

Lemma digits_string_of_uint (u : Decimal.uint) :
  Forall (fun c => is_digit c = true) (lit (NilEmpty.string_of_uint u)).
Proof.
  induction u; cbn [NilEmpty.string_of_uint]; try (constructor; [reflexivity|]);
    try exact IHu. constructor.
Qed.

Lemma digits_str_of_nat (i : nat) :
  Forall (fun c => is_digit c = true) (str_of_nat i).
Proof.
  unfold str_of_nat, NilZero.string_of_uint.
  destruct (Nat.to_uint i) eqn:E; try (rewrite <- E; apply digits_string_of_uint).
  repeat constructor.
Qed.

(** The digits of an index end at the first colon. *)
Lemma digits_then_colon (a b x y : str) :
  Forall (fun c => is_digit c = true) a ->
  Forall (fun c => is_digit c = true) b ->
  a ++ 58%N :: x = b ++ 58%N :: y ->
  a = b /\ x = y.
Proof.
  intros Ha. revert b. induction Ha as [|c a Hc Ha IH]; intros b Hb H.
  - destruct b as [|c' b]; [now injection H|].
    injection H as <- _. inversion Hb; subst. discriminate.
  - destruct b as [|c' b].
    + injection H as -> _. discriminate.
    + injection H as <- H. inversion Hb; subst.
      destruct (IH b H3 H) as [-> ->]. now split.
Qed.

Lemma count_newline_app (a b : str) :
  count_occ N.eq_dec (a ++ b) newline
  = count_occ N.eq_dec a newline + count_occ N.eq_dec b newline.
Proof. apply count_occ_app. Qed.

Lemma digits_no_newline (a : str) :
  Forall (fun c => is_digit c = true) a -> count_occ N.eq_dec a newline = 0.
Proof.
  intros H. apply (count_occ_not_In N.eq_dec). intros Hin.
  rewrite Forall_forall in H. specialize (H _ Hin). discriminate.
Qed.

End MoreDump.

(** X11.  The report is empty exactly when every paragraph is blank: its
    trimmed text is empty.  In particular the empty document gives the
    empty report. *)
Theorem dump_contract_empty_iff (d : Document) :
  snd (DumpContract.dump_contract d) = [] <->
  (forall p, In p d -> strip (text p) = []).
Proof.
  unfold DumpContract.dump_contract. cbn [snd].
  rewrite dump_loop_empty_iff. tauto.
Qed.

(** X12.  Paragraphs added at the end of a document only add lines at the
    end of its report: the report of [d1 ++ d2] is the report of [d1]
    followed by the lines of [d2], numbered from the length of [d1]. *)
Theorem dump_contract_app (d1 d2 : Document) :
  snd (DumpContract.dump_contract (d1 ++ d2))
  = snd (DumpContract.dump_contract d1)
    ++ concat (report_lines_from (length d1) d2).
Proof.
  unfold DumpContract.dump_contract. cbn [snd].
  rewrite dump_loop_app. cbn [Nat.add]. now rewrite dump_loop_lines.
Qed.

Section DumpLines.

Import DumpContract.

Lemma write_line_inj (i j : nat) (t t' : str) :
  write_line i t = write_line j t' -> i = j /\ t = t'.
Proof.
  unfold write_line. intros H.
  change (lit ": " ++ t ++ [newline]) with (58%N :: 32%N :: t ++ [newline]) in H.
  change (lit ": " ++ t' ++ [newline]) with (58%N :: 32%N :: t' ++ [newline]) in H.
  apply digits_then_colon in H; try apply digits_str_of_nat.
  destruct H as [Hi Ht]. split; [now apply str_of_nat_inj|].
  injection Ht as Ht. now apply app_inv_tail in Ht.
Qed.

Lemma report_lines_from_In (a : nat) (d : Document) (line : str) :
  In line (report_lines_from a d) ->
  exists i c t,
    a <= i /\ line = write_line i (c :: t) /\
    exists p, nth_error d (i - a) = Some p /\ strip (text p) = c :: t.
Proof.
  unfold report_lines_from. rewrite in_flat_map.
  intros [[i p] [Hin Hline]]. apply enumerate_from_In in Hin.
  destruct Hin as [Hle Hn]. unfold line_of in Hline. cbn [fst snd] in Hline.
  destruct (strip (text p)) as [|c t] eqn:E; [destruct Hline|].
  destruct Hline as [<-|[]]. exists i, c, t. split; [exact Hle|].
  split; [reflexivity|]. now exists p.
Qed.

Lemma report_lines_from_NoDup (a : nat) (d : Document) :
  NoDup (report_lines_from a d).
Proof.
  revert a. induction d as [|p d IH]; intros a; [constructor|].
  unfold report_lines_from. cbn [length seq combine flat_map].
  fold (report_lines_from (S a) d).
  unfold line_of at 1. cbn [fst snd].
  destruct (strip (text p)) as [|c t]; [apply IH|].
  cbn [app]. constructor; [|apply IH].
  intros Hin. apply report_lines_from_In in Hin.
  destruct Hin as [i [c' [t' [Hle [Heq _]]]]].
  apply (write_line_inj a i (c :: t) (c' :: t')) in Heq. lia.
Qed.

Lemma dump_loop_newlines (i : nat) (d : list Paragraph) (f : str) :
  (forall p, In p d -> ~ In newline (strip (text p))) ->
  count_occ N.eq_dec (dump_loop i d f) newline
  = count_occ N.eq_dec f newline
    + length (filter (fun p => negb (blank p)) d).
Proof.
  revert i f. induction d as [|p d IH]; intros i f H.
  - cbn. lia.
  - cbn [dump_loop filter]. rewrite IH by (intros q Hq; apply H; now right).
    unfold blank. specialize (H p (or_introl eq_refl)).
    destruct (strip (text p)) as [|c t]; cbn [negb length]; [lia|].
    unfold write_line. rewrite !count_newline_app.
    rewrite (digits_no_newline _ (digits_str_of_nat i)).
    apply (count_occ_not_In N.eq_dec) in H. unfold char in *. rewrite H.
    cbn. lia.
Qed.

End DumpLines.

(** X13.  When no trimmed text holds a line feed, the report has exactly
    one line feed for each paragraph that is not blank: every line of the
    dump is then one line of the file. *)
Theorem dump_contract_newlines (d : Document) :
  (forall p, In p d -> ~ In newline (strip (text p))) ->
  count_occ N.eq_dec (snd (DumpContract.dump_contract d)) newline
  = length (filter (fun p => negb (blank p)) d).
Proof.
  intros H. unfold DumpContract.dump_contract. cbn [snd].
  now rewrite dump_loop_newlines.
Qed.

Lemma dump_contract_newlines_witness :
  count_occ N.eq_dec
    (snd (DumpContract.dump_contract
            (doc_of_texts [lit " a"; lit "  "; lit "b c "]))) newline
  = length (filter (fun p => negb (blank p))
              (doc_of_texts [lit " a"; lit "  "; lit "b c "])).
Proof.
  apply (dump_contract_newlines (doc_of_texts [lit " a"; lit "  "; lit "b c "])).
  intros p Hp. destruct Hp as [<-|[<-|[<-|[]]]]; vm_compute; intuition discriminate.
Defined.

(** X14.  A line of the dump determines the position and the trimmed text
    it was written for, and the lines of a report are pairwise different. *)
Theorem dump_lines_distinct :
  (forall i j t t',
      DumpContract.write_line i t = DumpContract.write_line j t' ->
      i = j /\ t = t') /\
  (forall d, NoDup (report_lines d)).
Proof.
  split.
  - exact write_line_inj.
  - intros d. exact (report_lines_from_NoDup 0 d).
Qed.

(** X15.  The text in a line of the dump is trimmed: it is not empty and
    neither begins nor ends with white space (a non-breaking space
    included). *)
Theorem dump_lines_trimmed (d : Document) (line : str) :
  In line (report_lines d) ->
  exists i c t,
    line = str_of_nat i ++ lit ": " ++ (c :: t) ++ [newline] /\
    isspace c = false /\
    isspace (last (c :: t) c) = false.
Proof.
  intros H. apply (report_lines_from_In 0) in H.
  destruct H as [i [c [t [_ [Hline [p [_ Hs]]]]]]].
  exists i, c, t. split; [exact Hline|]. exact (strip_ends _ _ _ Hs).
Qed.

Lemma dump_lines_trimmed_witness :
  exists i c t,
    lit "1: b c" ++ [newline]
    = str_of_nat i ++ lit ": " ++ (c :: t) ++ [newline] /\
    isspace c = false /\
    isspace (last (c :: t) c) = false.
Proof.
  apply (dump_lines_trimmed
           (doc_of_texts [lit "  "; [nbsp] ++ lit "b c "])).
  vm_compute. left. reflexivity.
Defined.

(** A paragraph with a line break inside: one line of the dump, two lines
    of the file. *)
Example dump_line_break_inside :
  snd (DumpContract.dump_contract
         (doc_of_texts [lit "a" ++ [newline] ++ lit "b"]))
  = lit "0: a" ++ [newline] ++ lit "b" ++ [newline].
Proof. reflexivity. Qed.

(* ================================================================== *)
(** ** The search path of the development server *)

(** X16.  After the step that adds the Rust toolchain to the search path,
    the toolchain directory occurs in the path, the former path is still
    its end, and doing the step again changes nothing and prints nothing.
    The test is on substrings: a path that holds the directory inside a
    longer entry is left as it is. *)
Theorem add_rust_to_path_once (rust_bin : str) (path : option str) :
  let path' := fst (StartDev.add_rust_to_path rust_bin path) in
  occurs_in rust_bin (StartDev.get_path path') /\
  (exists front,
      StartDev.get_path path' = front ++ StartDev.get_path path) /\
  (occurs_in rust_bin (StartDev.get_path path) ->
   StartDev.add_rust_to_path rust_bin path = (path, [])) /\
  StartDev.add_rust_to_path rust_bin path' = (path', []).
Proof.
  cbv zeta. unfold StartDev.add_rust_to_path.
  destruct (contains rust_bin (StartDev.get_path path)) eqn:E; cbn [negb fst].
  - split; [now apply contains_iff|]. split; [now exists []|].
    split; [reflexivity|]. now rewrite E.
  - assert (H : occurs_in rust_bin
                  (rust_bin ++ lit ";" ++ StartDev.get_path path))
      by apply occurs_in_app_l, occurs_in_refl.
    split; [exact H|]. split.
    + exists (rust_bin ++ lit ";"). cbn [StartDev.get_path].
      now rewrite <- app_assoc.
    + split.
      * intros Hocc. apply contains_iff in Hocc. congruence.
      * cbn [StartDev.get_path]. now rewrite (proj2 (contains_iff _ _) H).
Qed.
